(** * Myotube / nuclei image analysis: a shallow embedding

    The Python sources [nuclei_detection.py], [myotube_detection.py] and
    [nuclei_myotube_relationship.py] are embedded as Rocq functions.

    - A 2-D numpy array is a list of rows of integers; its shape is read off
      the list, pixel coordinates are (row, column) pairs in row-major order.
    - Python exceptions are an explicit error result ([Raise]); the bodies
      of the entry points are written in the error monad.
    - The loops that accumulate counters and Python lists are folds over an
      explicit loop state.
    - A Python float that is a quotient of two integers (centroids,
      percentages) is kept as an exact rational; [int()] truncates it.
    - Directory creation, printing and plotting (the [visualize] branches)
      return nothing that the results use and are left out.

    The OpenCV / scikit-image routines whose algorithm is outside the
    repository and works in floating point (Gaussian blur, the Otsu
    threshold value, distance transform, normalisation, peak detection,
    watershed) are parameters of the pipeline; the theorems name the part of
    their documented contract they rely on.  The integer routines with a
    short exact definition (thresholding, erosion, dilation,
    connected-component labelling, [regionprops], [np.unique], [np.max], the
    comparison step of the adaptive threshold) are defined. *)

From Stdlib Require Import List ZArith QArith Lia Bool Arith Permutation.
From Stdlib Require String.
From Stdlib Require Import Sorted.
Import ListNotations.
Local Open Scope Z_scope.

(** ** Exceptions *)

Inductive exn : Type :=
| ValueError          (* raised by the sources when [cv2.imread] gives None; numpy on empty reductions *)
| Cv2Error            (* cv2.error, raised by OpenCV argument checks *)
| IndexError          (* numpy index out of bounds *)
| ZeroDivisionError.  (* Python [/] with a zero divisor *)

Inductive result (A : Type) : Type :=
| Ok (a : A)
| Raise (e : exn).
Arguments Ok {A} a.
Arguments Raise {A} e.

Definition bind {A B : Type} (m : result A) (k : A -> result B) : result B :=
  match m with
  | Ok a => k a
  | Raise e => Raise e
  end.

Notation "x <- m ;; k" := (bind m (fun x => k))
  (at level 61, m at next level, right associativity).

Fixpoint foldM {S A : Type} (step : S -> A -> result S) (xs : list A) (s : S)
  : result S :=
  match xs with
  | [] => Ok s
  | x :: xs' => s' <- step s x ;; foldM step xs' s'
  end.

(** ** numpy arrays *)

Definition grid (A : Type) : Type := list (list A).
Definition ndarray : Type := grid Z.
Abbreviation pixel := (nat * nat)%type.

Definition shape0 {A} (a : grid A) : nat := length a.
Definition shape1 {A} (a : grid A) : nat := length (hd [] a).

Definition get (a : ndarray) (p : pixel) : Z :=
  nth (snd p) (nth (fst p) a []) 0.

Definition tabulate (h w : nat) (f : pixel -> Z) : ndarray :=
  map (fun r => map (fun c => f (r, c)) (seq 0 w)) (seq 0 h).

(** Pixel coordinates in row-major (C) order, the order of [np.nonzero],
    [region.coords] and [ndarray.flatten]. *)
Definition pixels_of (h w : nat) : list pixel := list_prod (seq 0 h) (seq 0 w).
Definition pixels {A} (a : grid A) : list pixel := pixels_of (shape0 a) (shape1 a).

Definition flatten (a : ndarray) : list Z := map (get a) (pixels a).

Definition zeros_like {A} (a : grid A) : ndarray :=
  tabulate (shape0 a) (shape1 a) (fun _ => 0).

Definition pixel_eqb (p q : pixel) : bool :=
  Nat.eqb (fst p) (fst q) && Nat.eqb (snd p) (snd q).

(** [a[r, c] = v] with non-negative indices: IndexError out of range. *)
Definition np_setitem (a : ndarray) (p : pixel) (v : Z) : result ndarray :=
  if Nat.ltb (fst p) (shape0 a) && Nat.ltb (snd p) (shape1 a)
  then Ok (tabulate (shape0 a) (shape1 a)
             (fun q => if pixel_eqb q p then v else get a q))
  else Raise IndexError.

(** One axis of [a[y, x]]: a negative index counts from the end. *)
Definition norm_index (i : Z) (n : nat) : result nat :=
  if (0 <=? i) && (i <? Z.of_nat n) then Ok (Z.to_nat i)
  else if (i <? 0) && (- Z.of_nat n <=? i) then Ok (Z.to_nat (i + Z.of_nat n))
  else Raise IndexError.

Definition np_getitem (a : ndarray) (y x : Z) : result Z :=
  r <- norm_index y (shape0 a) ;;
  c <- norm_index x (shape1 a) ;;
  Ok (get a (r, c)).

(** [np.unique]: the sorted distinct values. *)
Fixpoint uinsert (x : Z) (l : list Z) : list Z :=
  match l with
  | [] => [x]
  | y :: t => if x <? y then x :: l
              else if x =? y then l
              else y :: uinsert x t
  end.

Definition np_unique (a : ndarray) : list Z := fold_right uinsert [] (flatten a).

(** [np.max]: ValueError on an empty array. *)
Definition np_max (a : ndarray) : result Z :=
  match flatten a with
  | [] => Raise ValueError
  | x :: t => Ok (fold_left Z.max t x)
  end.

(** [labels == l] followed by [.astype(int)]. *)
Definition eq_mask (labels : ndarray) (l : Z) : ndarray :=
  tabulate (shape0 labels) (shape1 labels)
    (fun p => if get labels p =? l then 1 else 0).

(** ** skimage.measure.regionprops *)

Record Region : Type := mkRegion {
  label : Z;
  coords : list pixel
}.

Definition area (r : Region) : Z := Z.of_nat (length (coords r)).

Definition sum_nat (xs : list nat) : nat := fold_right Nat.add 0%nat xs.

(** [coords.mean(axis=0)]: the sums are exact integers, the quotient is kept
    as a rational. *)
Definition mean (xs : list nat) : Q :=
  Qmake (Z.of_nat (sum_nat xs)) (Pos.of_nat (length xs)).

Definition centroid (r : Region) : Q * Q :=
  (mean (map fst (coords r)), mean (map snd (coords r))).

Definition coords_of (L : ndarray) (l : Z) : list pixel :=
  filter (fun p => get L p =? l) (pixels L).

Definition amax (L : ndarray) : Z := fold_right Z.max 0 (flatten L).

Definition labels_upto (n : nat) : list Z := map Z.of_nat (seq 1 n).

(** One region per label [1 .. max] that occurs, in increasing label order. *)
Definition regionprops (L : ndarray) : list Region :=
  flat_map (fun l => match coords_of L l with
                     | [] => []
                     | cs => [mkRegion l cs]
                     end)
           (labels_upto (Z.to_nat (amax L))).

(** Python [int(x)] on a float: truncation toward zero. *)
Definition py_int (q : Q) : Z := Z.quot (Qnum q) (Zpos (Qden q)).

(** Python [a / b] on two ints. *)
Definition py_truediv (a b : Z) : result Q :=
  if b =? 0 then Raise ZeroDivisionError
  else Ok (Qdiv (inject_Z a) (inject_Z b)).

(** ** nuclei_myotube_relationship.py, lines 59-92 *)

Record loop_state : Type := mkLoop {
  st_within : Z;
  st_outside : Z;
  st_centroids : list (Q * Q);
  st_in_myotube : list bool
}.

(** Line 83: [y < shape[0] and x < shape[1] and myotube_mask[y, x] > 0]. *)
Definition centroid_in_mask (myotube_mask : ndarray) (y x : Z) : result bool :=
  if (y <? Z.of_nat (shape0 myotube_mask)) && (x <? Z.of_nat (shape1 myotube_mask))
  then v <- np_getitem myotube_mask y x ;; Ok (v >? 0)
  else Ok false.

(** Body of the loop of lines 71-88. *)
Definition nucleus_step (nuclei_labels myotube_mask : ndarray)
  (st : loop_state) (nucleus_label : Z) : result loop_state :=
  let nucleus_mask := eq_mask nuclei_labels nucleus_label in
  match regionprops nucleus_mask with
  | [] => Ok st
  | props0 :: _ =>
      let c := centroid props0 in
      let y := py_int (fst c) in
      let x := py_int (snd c) in
      b <- centroid_in_mask myotube_mask y x ;;
      if b
      then Ok (mkLoop (st_within st + 1) (st_outside st)
                 (st_centroids st ++ [c]) (st_in_myotube st ++ [true]))
      else Ok (mkLoop (st_within st) (st_outside st + 1)
                 (st_centroids st ++ [c]) (st_in_myotube st ++ [false]))
  end.

Definition unique_nuclei (nuclei_labels : ndarray) : list Z :=
  filter (fun l => l >? 0) (np_unique nuclei_labels).

Record relationship : Type := mkRelationship {
  total_nuclei : Z;
  nuclei_within_myotubes : Z;
  nuclei_outside_myotubes : Z;
  percentage_within_myotubes : Q;
  nuclei_centroids : list (Q * Q);
  nuclei_in_myotube : list bool
}.

(** Line 92: the conditional expression evaluates the division only when
    [total_nuclei > 0]. *)
Definition percentage (within total : Z) : result Q :=
  if total >? 0
  then q <- py_truediv within total ;; Ok (Qmult q (inject_Z 100))
  else Ok (inject_Z 0).

Definition relationship_core (nuclei_labels myotube_mask : ndarray)
  : result relationship :=
  st <- foldM (nucleus_step nuclei_labels myotube_mask)
          (unique_nuclei nuclei_labels) (mkLoop 0 0 [] []) ;;
  let total := st_within st + st_outside st in
  pct <- percentage (st_within st) total ;;
  Ok (mkRelationship total (st_within st) (st_outside st) pct
        (st_centroids st) (st_in_myotube st)).

(** ** skimage.measure.label

    Two pixels are connected when they are neighbours and have the same
    value; for a 2-D input the default neighbourhood is the 8 surrounding
    pixels.  Value 0 is background.  The components are numbered 1, 2, ...
    in raster order of their first pixel. *)

Definition adj8 (p q : pixel) : bool :=
  negb (pixel_eqb p q)
  && Nat.leb (fst p) (S (fst q)) && Nat.leb (fst q) (S (fst p))
  && Nat.leb (snd p) (S (snd q)) && Nat.leb (snd q) (S (snd p)).

Definition linked (a : ndarray) (p q : pixel) : bool :=
  adj8 p q && (get a p =? get a q).

(** [q] is in [S] or linked to a pixel of [S]. *)
Definition touches (a : ndarray) (S : list pixel) (q : pixel) : bool :=
  existsb (fun p => pixel_eqb p q || linked a p q) S.

(** [S] grown by one ring of linked pixels, in raster order. *)
Definition expand (a : ndarray) (S : list pixel) : list pixel :=
  filter (touches a S) (pixels a).

(** Grow until the set stops growing. *)
Fixpoint closure (fuel : nat) (a : ndarray) (S : list pixel) : list pixel :=
  match fuel with
  | O => S
  | Datatypes.S fuel' =>
      let S' := expand a S in
      if Nat.eqb (length S') (length S) then S else closure fuel' a S'
  end.

(** The pixels connected to [p]; the number of pixels is fuel enough. *)
Definition component (a : ndarray) (p : pixel) : list pixel :=
  closure (length (pixels a)) a (filter (pixel_eqb p) (pixels a)).

Definition mem (p : pixel) (S : list pixel) : bool := existsb (pixel_eqb p) S.

(** Raster scan: a foreground pixel that lies in no component found so far
    opens the next component. *)
Fixpoint scan (a : ndarray) (todo : list pixel) (found : list (list pixel))
  : list (list pixel) :=
  match todo with
  | [] => found
  | p :: rest =>
      if (get a p =? 0) || existsb (mem p) found
      then scan a rest found
      else scan a rest (found ++ [component a p])
  end.

Definition components (a : ndarray) : list (list pixel) := scan a (pixels a) [].

(** 1-based position of the first component that contains [p], 0 if none. *)
Fixpoint index_of (p : pixel) (cs : list (list pixel)) : nat :=
  match cs with
  | [] => 0
  | c :: cs' => if mem p c then 1
                else match index_of p cs' with
                     | O => O
                     | Datatypes.S i => Datatypes.S (Datatypes.S i)
                     end
  end.

Definition measure_label (a : ndarray) : ndarray :=
  let cs := components a in
  tabulate (shape0 a) (shape1 a) (fun p => Z.of_nat (index_of p cs)).

(** ** myotube_detection.py, lines 69-88: area filter and metrics *)

Record filter_state : Type := mkFilter {
  fs_count : Z;
  fs_total_area : Z;
  fs_filtered : ndarray
}.

(** [for coord in cs: a[coord[0], coord[1]] = v]. *)
Definition np_setitems (a : ndarray) (cs : list pixel) (v : Z) : result ndarray :=
  foldM (fun f p => np_setitem f p v) cs a.

(** Lines 80-84, one iteration of [for region in regions]. *)
Definition region_step (min_area : Z) (st : filter_state) (region : Region)
  : result filter_state :=
  if area region >=? min_area
  then f <- np_setitems (fs_filtered st) (coords region) 255 ;;
       Ok (mkFilter (fs_count st + 1) (fs_total_area st + area region) f)
  else Ok st.

(** Lines 69-84 with the threshold as a parameter. *)
Definition filter_regions (min_area : Z) (closed : ndarray) : result filter_state :=
  let labeled_image := measure_label closed in
  let regions := regionprops labeled_image in
  foldM (region_step min_area) regions (mkFilter 0 0 (zeros_like closed)).

(** Line 73. *)
Definition min_area : Z := 100.

Definition area_filter (closed : ndarray) : result filter_state :=
  filter_regions min_area closed.

(** Lines 87-88: no test on [image_area] before the division.  With
    [image_area = 0] no region can have been kept, so [total_myotube_area]
    is still the Python int 0 and [/] is Python's division. *)
Definition myotube_area_percentage_of (total_myotube_area image_area : Z) : result Q :=
  q <- py_truediv total_myotube_area image_area ;;
  Ok (Qmult q (inject_Z 100)).

(** ** OpenCV integer routines *)

(** The in-bounds pixels of the [k] x [k] square centred on [p]
    (odd [k], anchor at the centre). *)
Definition in_window (k : nat) (p q : pixel) : bool :=
  Nat.leb (fst p) (fst q + k / 2) && Nat.leb (fst q) (fst p + k / 2)
  && Nat.leb (snd p) (snd q + k / 2) && Nat.leb (snd q) (snd p + k / 2).

Definition window {A} (k : nat) (a : grid A) (p : pixel) : list pixel :=
  filter (in_window k p) (pixels a).

(** [cv2.erode] / [cv2.dilate] with a [k] x [k] kernel of ones; pixels
    outside the image do not take part (default border value). *)
Definition erode1 (k : nat) (a : ndarray) : ndarray :=
  tabulate (shape0 a) (shape1 a)
    (fun p => fold_right Z.min (get a p) (map (get a) (window k a p))).

Definition dilate1 (k : nat) (a : ndarray) : ndarray :=
  tabulate (shape0 a) (shape1 a)
    (fun p => fold_right Z.max (get a p) (map (get a) (window k a p))).

Definition erode (k iterations : nat) (a : ndarray) : ndarray :=
  Nat.iter iterations (erode1 k) a.

Definition dilate (k iterations : nat) (a : ndarray) : ndarray :=
  Nat.iter iterations (dilate1 k) a.

(** [cv2.morphologyEx] with MORPH_OPEN and MORPH_CLOSE. *)
Definition morph_open (k iterations : nat) (a : ndarray) : ndarray :=
  dilate k iterations (erode k iterations a).

Definition morph_close (k iterations : nat) (a : ndarray) : ndarray :=
  erode k iterations (dilate k iterations a).

(** [cv2.threshold(src, t, maxval, THRESH_BINARY)]. *)
Definition threshold_binary (t maxval : Z) (a : ndarray) : ndarray :=
  tabulate (shape0 a) (shape1 a) (fun p => if get a p >? t then maxval else 0).

(** ** Colour images: H x W x C *)

Definition image3 : Type := grid (list Z).

Definition channels (img : image3) : nat := length (hd [] (hd [] img)).

Definition swap_rb (px : list Z) : list Z := [nth 2 px 0; nth 1 px 0; nth 0 px 0].

(** [cv2.cvtColor(image, cv2.COLOR_BGR2RGB)]: OpenCV rejects an empty source
    and a source that has neither 3 nor 4 channels. *)
Definition cvtColor_BGR2RGB (img : image3) : result image3 :=
  if Nat.eqb (shape0 img) 0 || Nat.eqb (shape1 img) 0 then Raise Cv2Error
  else if Nat.eqb (channels img) 3 || Nat.eqb (channels img) 4
  then Ok (map (map swap_rb) img)
  else Raise Cv2Error.

(** [image_rgb[:, :, k]]. *)
Definition get_channel (img : image3) (k : nat) : result ndarray :=
  if Nat.ltb k (channels img)
  then Ok (tabulate (shape0 img) (shape1 img)
             (fun p => nth k (nth (snd p) (nth (fst p) img []) []) 0))
  else Raise IndexError.

(** ** cv2.adaptiveThreshold *)

Inductive adaptive_method : Type :=
| ADAPTIVE_THRESH_MEAN_C
| ADAPTIVE_THRESH_GAUSSIAN_C.

Definition clamp (i : Z) (n : nat) : nat :=
  Z.to_nat (Z.max 0 (Z.min i (Z.of_nat n - 1))).

(** The source pixel under window offset [(i, j)] of the block centred on
    [p], with BORDER_REPLICATE. *)
Definition replicate_at (a : ndarray) (block : nat) (p : pixel) (i j : nat) : Z :=
  get a (clamp (Z.of_nat (fst p) + Z.of_nat i - Z.of_nat (block / 2)) (shape0 a),
         clamp (Z.of_nat (snd p) + Z.of_nat j - Z.of_nat (block / 2)) (shape1 a)).

Definition Qsum (xs : list Q) : Q :=
  fold_right (fun x acc => Qred (Qplus x acc)) (inject_Z 0) xs.

(** Weighted sum of the block with separable weights [k i * k j]. *)
Definition weighted_mean (k : nat -> Q) (block : nat) (a : ndarray) (p : pixel) : Q :=
  Qsum (map (fun ij => Qmult (Qmult (k (fst ij)) (k (snd ij)))
                         (inject_Z (replicate_at a block p (fst ij) (snd ij))))
            (list_prod (seq 0 block) (seq 0 block))).

Definition box_weight (block : nat) (_ : nat) : Q := Qmake 1 (Pos.of_nat block).


(** Rounding of the mean to an integer pixel value: nearest, ties to even. *)
Definition round_half_even (q : Q) : Z :=
  let n := Qnum q in
  let d := Zpos (Qden q) in
  let f := n / d in
  let r2 := 2 * (n mod d) in
  if r2 <? d then f
  else if d <? r2 then f + 1
  else if Z.even f then f else f + 1.

(** [-C] rounded as OpenCV does for THRESH_BINARY: [-ceil(C)]. *)
Definition Qceiling (q : Q) : Z := - ((- Qnum q) / Zpos (Qden q)).

Definition adaptiveThreshold (gauss : nat -> Q) (src : ndarray) (maxValue : Z)
  (method : adaptive_method) (blockSize : nat) (C : Q) : ndarray :=
  let k := match method with
           | ADAPTIVE_THRESH_MEAN_C => box_weight blockSize
           | ADAPTIVE_THRESH_GAUSSIAN_C => gauss
           end in
  tabulate (shape0 src) (shape1 src)
    (fun p => let m := round_half_even (weighted_mean k blockSize src p) in
              if get src p - m >? - Qceiling C then maxValue else 0).

(** ** Results of the three entry points *)

Record nuclei_results : Type := mkNuclei {
  nuclei_count : Z;
  threshold_value : Z;
  labels : ndarray
}.

Record myotube_results : Type := mkMyotubes {
  myotube_count : Z;
  total_myotube_area : Z;
  myotube_area_percentage : Q;
  myotube_mask : ndarray;
  labeled_myotubes : ndarray
}.

Record analysis_results : Type := mkAnalysis {
  relation : relationship;
  res_myotube_count : Z;
  res_myotube_area_percentage : Q
}.

(** ** The three entry points

    Each takes the image path; [output_dir] and [visualize] only drive
    directory creation, plots and prints. *)

Section Pipeline.

(** The image file system and the library routines. *)
Variable cv2_imread : String.string -> option image3.
Variable GaussianBlur : ndarray -> ndarray.          (* (5, 5), sigma 0 *)
Variable getGaussianKernel : nat -> Q.               (* 21 weights of the adaptive window *)
Variable otsu : ndarray -> Z.                        (* THRESH_OTSU threshold value *)
Variable distanceTransform : ndarray -> grid Q.      (* DIST_L2, mask size 5 *)
Variable normalize : grid Q -> grid Q.               (* NORM_MINMAX to 0.0 .. 1.0 *)
Variable peak_local_max : grid Q -> Z -> ndarray -> list pixel.
Variable watershed : grid Q -> ndarray -> ndarray -> ndarray.

(** nuclei_detection.py, lines 66-80: markers and watershed labels. *)
Definition nuclei_coordinates (dilated : ndarray) : list pixel :=
  let dist_transform := normalize (distanceTransform dilated) in
  peak_local_max dist_transform 7 dilated.

Definition nuclei_labels_of (dilated : ndarray) : result ndarray :=
  let dist_transform := normalize (distanceTransform dilated) in
  let coordinates := peak_local_max dist_transform 7 dilated in
  local_max <- np_setitems (zeros_like dist_transform) coordinates 1 ;;
  let markers := measure_label local_max in
  Ok (watershed (map (map Qopp) dist_transform) markers dilated).

(** nuclei_detection.py, lines 49-58. *)
Definition nuclei_binary (blurred : ndarray) : ndarray :=
  let binary := threshold_binary (otsu blurred) 255 blurred in
  let eroded := erode 3 1 binary in
  dilate 3 1 eroded.

(** nuclei_detection.py. *)
Definition detect_nuclei (image_path : String.string) : result nuclei_results :=
  match cv2_imread image_path with
  | None => Raise ValueError
  | Some image =>
      image_rgb <- cvtColor_BGR2RGB image ;;
      blue_channel <- get_channel image_rgb 2 ;;
      let blurred := GaussianBlur blue_channel in
      let dilated := nuclei_binary blurred in
      labels <- nuclei_labels_of dilated ;;
      nuclei_count <- np_max labels ;;
      Ok (mkNuclei nuclei_count (otsu blurred) labels)
  end.

(** myotube_detection.py, lines 50-57. *)
Definition myotube_binary (blurred : ndarray) : ndarray :=
  adaptiveThreshold getGaussianKernel blurred 255 ADAPTIVE_THRESH_GAUSSIAN_C 21
    (inject_Z (-5)).

(** myotube_detection.py, lines 61-66. *)
Definition myotube_closed (blurred : ndarray) : ndarray :=
  let opened := morph_open 3 1 (myotube_binary blurred) in
  morph_close 5 2 opened.

(** myotube_detection.py; [labeled_myotubes] is [measure.label] of the
    filtered mask on either branch of line 137. *)
Definition detect_myotubes (image_path : String.string) : result myotube_results :=
  match cv2_imread image_path with
  | None => Raise ValueError
  | Some image =>
      image_rgb <- cvtColor_BGR2RGB image ;;
      red_channel <- get_channel image_rgb 0 ;;
      let blurred := GaussianBlur red_channel in
      let closed := myotube_closed blurred in
      fs <- area_filter closed ;;
      let image_area := Z.of_nat (shape0 image_rgb) * Z.of_nat (shape1 image_rgb) in
      pct <- myotube_area_percentage_of (fs_total_area fs) image_area ;;
      Ok (mkMyotubes (fs_count fs) (fs_total_area fs) pct (fs_filtered fs)
            (measure_label (fs_filtered fs)))
  end.

(** nuclei_myotube_relationship.py: the image is loaded and converted
    once more (lines 39-44) before the two detectors run. *)
Definition analyze_nuclei_myotube_relationship (image_path : String.string)
  : result analysis_results :=
  match cv2_imread image_path with
  | None => Raise ValueError
  | Some image =>
      _ <- cvtColor_BGR2RGB image ;;
      nuclei <- detect_nuclei image_path ;;
      myotubes <- detect_myotubes image_path ;;
      rel <- relationship_core (labels nuclei) (myotube_mask myotubes) ;;
      Ok (mkAnalysis rel (myotube_count myotubes) (myotube_area_percentage myotubes))
  end.

End Pipeline.

(** ** Reading the relationship loop nucleus by nucleus *)

(** Centroid of the region of label [l]. *)
Definition nucleus_centroid (labels : ndarray) (l : Z) : Q * Q :=
  centroid (mkRegion 1 (coords_of labels l)).

(** Line 82: [y, x = int(centroid[0]), int(centroid[1])]. *)
Definition centroid_pixel (labels : ndarray) (l : Z) : Z * Z :=
  (py_int (fst (nucleus_centroid labels l)), py_int (snd (nucleus_centroid labels l))).

(** The pixel nearest to the centroid. *)
Definition nearest_pixel (labels : ndarray) (l : Z) : Z * Z :=
  (round_half_even (fst (nucleus_centroid labels l)),
   round_half_even (snd (nucleus_centroid labels l))).

(** [mask] is foreground at the in-bounds coordinate [yx]. *)
Definition foreground_at (mask : ndarray) (yx : Z * Z) : Prop :=
  0 <= fst yx < Z.of_nat (shape0 mask) /\
  0 <= snd yx < Z.of_nat (shape1 mask) /\
  get mask (Z.to_nat (fst yx), Z.to_nat (snd yx)) > 0.

(** The test of line 83 at the truncated centroid of nucleus [l]. *)
Definition nucleus_inside (labels mask : ndarray) (l : Z) : bool :=
  let yx := centroid_pixel labels l in
  (fst yx <? Z.of_nat (shape0 mask)) && (snd yx <? Z.of_nat (shape1 mask))
  && (get mask (Z.to_nat (fst yx), Z.to_nat (snd yx)) >? 0).

(** ** Connectivity, the relation that [measure_label] computes *)

(** [conn a p q]: a chain of 8-neighbours of equal value, all inside the
    array, leads from [p] to [q]. *)
Inductive conn (a : ndarray) : pixel -> pixel -> Prop :=
| conn_refl p : In p (pixels a) -> conn a p p
| conn_step p q r :
    conn a p q -> In r (pixels a) -> linked a q r = true -> conn a p r.

(** A pixel set listed in raster order, as [expand] and [component] produce it. *)
Definition canonical (a : ndarray) (S : list pixel) : Prop :=
  exists f, S = filter f (pixels a).

(** Every found component is the component of a foreground root, and the
    root sits in no earlier component. *)
Definition rooted (a : ndarray) (found : list (list pixel)) : Prop :=
  forall i, (i < length found)%nat ->
    exists r, In r (pixels a) /\ get a r <> 0 /\
              nth i found [] = component a r /\ index_of r found = S i.

(** ** Reading the area filter region by region *)

(** Line 80: [region.area >= min_area]. *)
Definition passes (m : Z) (r : Region) : bool := area r >=? m.

(** The regions that survive the filter. *)
Definition kept_regions (m : Z) (closed : ndarray) : list Region :=
  filter (passes m) (regionprops (measure_label closed)).

Definition sum_Z (xs : list Z) : Z := fold_right Z.add 0 xs.

(** Number of pixels 8-connected to [p] through equal values. *)
Definition component_area (a : ndarray) (p : pixel) : Z :=
  Z.of_nat (length (component a p)).

(** [p] is a foreground pixel whose component has at least [m] pixels. *)
Definition survives (m : Z) (a : ndarray) (p : pixel) : bool :=
  negb (get a p =? 0) && (component_area a p >=? m).

(** A mask with values 0 and 255 only. *)
Definition is_binary (a : ndarray) : bool :=
  forallb (fun p => (get a p =? 0) || (get a p =? 255)) (pixels a).

(** [q] belongs to a region of [rs] that passes the filter. *)
Definition painted (m : Z) (rs : list Region) (q : pixel) : bool :=
  existsb (fun r => passes m r && mem q (coords r)) rs.

(** Two arrays with the same index set. *)
Definition same_shape {A B} (x : grid A) (y : grid B) : Prop := pixels x = pixels y.

(** Every pixel is 0. *)
Definition all_zero (a : ndarray) : Prop :=
  forall p, In p (pixels a) -> get a p = 0.

(** The mask that keeps exactly the surviving pixels. *)
Definition survivors_mask (m : Z) (a : ndarray) : ndarray :=
  tabulate (shape0 a) (shape1 a) (fun q => if survives m a q then 255 else 0).

(** ** Loop-state bookkeeping *)

(** The loop state after the nucleus of label [l] has been classified. *)
Definition record_nucleus (labels mask : ndarray) (st : loop_state) (l : Z) : loop_state :=
  if nucleus_inside labels mask l
  then mkLoop (st_within st + 1) (st_outside st)
         (st_centroids st ++ [nucleus_centroid labels l]) (st_in_myotube st ++ [true])
  else mkLoop (st_within st) (st_outside st + 1)
         (st_centroids st ++ [nucleus_centroid labels l]) (st_in_myotube st ++ [false]).

Definition count_true (bs : list bool) : Z := Z.of_nat (length (filter (fun b => b) bs)).
Definition count_false (bs : list bool) : Z := Z.of_nat (length (filter negb bs)).

(** ** Example arrays *)

(** One nucleus whose centroid (2/3, 1/3) truncates to (0, 0) and rounds
    to (1, 0); the mask is foreground only at (1, 0). *)
Definition corner_labels : ndarray := [[1; 0]; [1; 1]].
Definition corner_mask : ndarray := [[0; 0]; [255; 0]].

(** Two nuclei, one over a myotube pixel and one over background. *)
Definition pair_labels : ndarray := [[1; 0; 0]; [0; 0; 2]].
Definition pair_mask : ndarray := [[255; 255; 0]; [0; 0; 0]].

(** A 10 x 10 block (100 pixels) and a 12-pixel bottom row. *)
Definition speckled : ndarray :=
  tabulate 12 12
    (fun p => if Nat.ltb (fst p) 10 && Nat.ltb (snd p) 10 then 255
              else if Nat.eqb (fst p) 11 then 255 else 0).

(** An image that [cv2.cvtColor] accepts: not empty, 3 or 4 channels. *)
Definition valid_image (img : image3) : bool :=
  Nat.ltb 0 (shape0 img) && Nat.ltb 0 (shape1 img)
  && (Nat.eqb (channels img) 3 || Nat.eqb (channels img) 4).

(** The BGR pixel at [p]. *)
Definition bgr_at (img : image3) (p : pixel) : list Z :=
  nth (snd p) (nth (fst p) img []) [].



(** The channels [image_rgb[:, :, 2]] and [image_rgb[:, :, 0]] of a BGR image. *)
Definition blue_of (image : image3) : ndarray :=
  tabulate (shape0 image) (shape1 image) (fun p => nth 2 (swap_rb (bgr_at image p)) 0).

Definition red_of (image : image3) : ndarray :=
  tabulate (shape0 image) (shape1 image) (fun p => nth 0 (swap_rb (bgr_at image p)) 0).

(** A vertical pair, a single pixel, a diagonal pair, and one pixel of
    another value (7) that touches the diagonal pair. *)
Definition blobs : ndarray :=
  [[255; 0; 0; 255];
   [255; 0; 0; 0];
   [0; 0; 255; 0];
   [0; 7; 0; 255]].

(** ** The Gaussian window of ADAPTIVE_THRESH_GAUSSIAN_C

    [cv2.getGaussianKernel(n, sigma <= 0)]: sigma = 0.3 ((n-1)/2 - 1) + 0.8,
    weights proportional to exp (-(i - (n-1)/2)^2 / (2 sigma^2)), normalised
    to sum 1.  OpenCV holds the weights in floating point; here the
    exponential is its Taylor polynomial of degree 40 in exact rationals,
    each unnormalised weight is cut to 64 fractional bits, and the
    normalisation is exact. *)

Fixpoint exp_horner (fuel : nat) (k : Z) (u : Q) : Q :=
  match fuel with
  | O => inject_Z 1
  | S fuel' =>
      Qred (Qplus (inject_Z 1)
              (Qmult (Qdiv u (inject_Z k)) (exp_horner fuel' (k + 1) u)))
  end.

Definition exp_q (u : Q) : Q := exp_horner 40 1 u.

Definition gaussian_sigma (n : nat) : Q :=
  Qred (Qplus (Qmult (3 # 10) (Qminus (Qdiv (inject_Z (Z.of_nat n - 1)) (inject_Z 2))
                                 (inject_Z 1)))
          (8 # 10)).

Definition quantize64 (q : Q) : Q :=
  Qmake (Qnum q * 2 ^ 64 / Zpos (Qden q)) (2 ^ 64).

Definition gaussian_raw (n i : nat) : Q :=
  let x := Qminus (inject_Z (Z.of_nat i)) (Qdiv (inject_Z (Z.of_nat n - 1)) (inject_Z 2)) in
  let s := gaussian_sigma n in
  quantize64 (Qinv (exp_q (Qdiv (Qmult x x) (Qmult (inject_Z 2) (Qmult s s))))).

Definition gaussian_table (n : nat) : list Q :=
  let raw := map (gaussian_raw n) (seq 0 n) in
  let total := Qsum raw in
  map (fun r => Qred (Qdiv r total)) raw.

Definition gaussian_kernel (n : nat) : nat -> Q :=
  let table := gaussian_table n in
  fun i => nth i table (inject_Z 0).

(** ** cv2.GaussianBlur(src, (5, 5), 0) on 8-bit data

    With sigma 0 and aperture 5 OpenCV takes the fixed kernel
    [1 4 6 4 1] / 16 in both directions; the border is BORDER_REFLECT_101 and
    the result is rounded to the nearest integer.  Ties are rounded up here;
    the pipeline itself takes the blur as a parameter, so nothing proved
    about the pipeline depends on that choice. *)

Fixpoint reflect101_loop (fuel : nat) (i n : Z) : Z :=
  match fuel with
  | O => 0
  | S fuel' =>
      if i <? 0 then reflect101_loop fuel' (- i) n
      else if n <=? i then reflect101_loop fuel' (2 * n - 2 - i) n
      else i
  end.

Definition reflect101 (i : Z) (n : nat) : nat :=
  if Nat.eqb n 1 then 0%nat else Z.to_nat (reflect101_loop 8 i (Z.of_nat n)).

Definition binomial5 : list Z := [1; 4; 6; 4; 1].

Definition blur5_sum (a : ndarray) (p : pixel) : Z :=
  sum_Z (map (fun ij =>
                nth (fst ij) binomial5 0 * nth (snd ij) binomial5 0
                * get a (reflect101 (Z.of_nat (fst p) + Z.of_nat (fst ij) - 2) (shape0 a),
                         reflect101 (Z.of_nat (snd p) + Z.of_nat (snd ij) - 2) (shape1 a)))
             (list_prod (seq 0 5) (seq 0 5))).

Definition gaussian_blur_5x5 (a : ndarray) : ndarray :=
  tabulate (shape0 a) (shape1 a) (fun p => (blur5_sum a p + 128) / 256).



(** ** Simple routines that meet the assumed library contracts

    They show that the contracts can be met together, and give the pipeline
    something to run on. *)

Definition sample_imread (img : image3) : String.string -> option image3 :=
  fun _ => Some img.

Definition sample_otsu (_ : ndarray) : Z := 0.

Definition sample_distance (a : ndarray) : grid Q := map (map inject_Z) a.

Definition sample_normalize (d : grid Q) : grid Q := d.

(** The first non-zero pixel of [labels], if any. *)
Definition sample_peaks (_ : grid Q) (_ : Z) (labels : ndarray) : list pixel :=
  firstn 1 (filter (fun p => negb (get labels p =? 0)) (pixels labels)).

(** The markers restricted to the mask, without any flooding. *)
Definition sample_watershed (_ : grid Q) (markers mask : ndarray) : ndarray :=
  tabulate (shape0 markers) (shape1 markers)
    (fun p => if get mask p =? 0 then 0 else get markers p).

(** A 3 x 3 BGR image with a saturated blue channel, a black 2 x 2 image and
    an image without rows. *)
Definition blue_image : image3 :=
  [[[200; 0; 0]; [200; 0; 0]; [200; 0; 0]];
   [[200; 0; 0]; [200; 0; 0]; [200; 0; 0]];
   [[200; 0; 0]; [200; 0; 0]; [200; 0; 0]]].

Definition black_image : image3 :=
  [[[0; 0; 0]; [0; 0; 0]]; [[0; 0; 0]; [0; 0; 0]]].


(** * Proofs *)

(** ** The definitions on small inputs *)

Example measure_label_blobs :
  measure_label blobs = [[1; 0; 0; 2]; [1; 0; 0; 0]; [0; 0; 3; 0]; [0; 4; 0; 3]].
Proof. vm_compute. reflexivity. Qed.

Example regionprops_blobs :
  map area (regionprops (measure_label blobs)) = [2; 1; 2; 1].
Proof. vm_compute. reflexivity. Qed.

Example np_unique_blobs : np_unique blobs = [0; 7; 255].
Proof. reflexivity. Qed.

Example np_max_empty : np_max [] = Raise ValueError.
Proof. reflexivity. Qed.

Example np_getitem_negative : np_getitem blobs (-1) (-3) = Ok 7.
Proof. reflexivity. Qed.

Example np_getitem_out_of_range : np_getitem blobs 4 0 = Raise IndexError.
Proof. reflexivity. Qed.

Example py_int_truncates : py_int (7 # 2) = 3 /\ py_int (-7 # 2) = -3.
Proof. split; reflexivity. Qed.

Example filter_regions_blobs :
  filter_regions 2 blobs =
  Ok (mkFilter 2 4 [[255; 0; 0; 0]; [255; 0; 0; 0]; [0; 0; 255; 0]; [0; 0; 0; 255]]).
Proof. vm_compute. reflexivity. Qed.

Example erode_dilate_blobs :
  erode1 3 blobs = zeros_like blobs /\
  dilate1 3 blobs =
    [[255; 255; 255; 255]; [255; 255; 255; 255]; [255; 255; 255; 255]; [7; 255; 255; 255]].
Proof. split; vm_compute; reflexivity. Qed.

Example cvtColor_swaps : cvtColor_BGR2RGB [[[1; 2; 3]]] = Ok [[[3; 2; 1]]].
Proof. reflexivity. Qed.

Example cvtColor_two_channels : cvtColor_BGR2RGB [[[1; 2]]] = Raise Cv2Error.
Proof. reflexivity. Qed.

Example adaptive_mean_small :
  adaptiveThreshold (fun _ => inject_Z 0) [[10; 20]; [0; 3]] 255
    ADAPTIVE_THRESH_MEAN_C 3 (inject_Z (-5))
  = [[0; 255]; [0; 0]].
Proof. vm_compute. reflexivity. Qed.

Example round_half_even_ties :
  round_half_even (5 # 2) = 2 /\ round_half_even (7 # 2) = 4 /\
  round_half_even (26 # 10) = 3.
Proof. repeat split. Qed.

Example gaussian_kernel_sums_to_one : Qred (Qsum (gaussian_table 21)) = inject_Z 1.
Proof. vm_compute. reflexivity. Qed.

Example gaussian_blur_constant :
  gaussian_blur_5x5 [[10; 20]; [30; 40]] = [[25; 25]; [25; 25]].
Proof. vm_compute. reflexivity. Qed.

(** ** Arrays *)

Lemma in_pixels_of (h w : nat) (p : pixel) :
  In p (pixels_of h w) <-> (fst p < h)%nat /\ (snd p < w)%nat.
Proof.
  destruct p as [r c]. unfold pixels_of. rewrite in_prod_iff, !in_seq. simpl. lia.
Qed.

Lemma shape0_tabulate h w f : shape0 (tabulate h w f) = h.
Proof. unfold shape0, tabulate. now rewrite length_map, length_seq. Qed.

Lemma shape1_tabulate h w f : (0 < h)%nat -> shape1 (tabulate h w f) = w.
Proof.
  intros Hh. unfold shape1, tabulate. destruct h as [|h]; [lia|].
  simpl. now rewrite length_map, length_seq.
Qed.

Lemma pixels_tabulate h w f : pixels (tabulate h w f) = pixels_of h w.
Proof.
  unfold pixels. rewrite shape0_tabulate. destruct h as [|h]; [reflexivity|].
  rewrite shape1_tabulate by lia. reflexivity.
Qed.

Lemma get_tabulate h w f p :
  In p (pixels_of h w) -> get (tabulate h w f) p = f p.
Proof.
  rewrite in_pixels_of. destruct p as [r c]. simpl. intros [Hr Hc].
  unfold get, tabulate. simpl.
  rewrite (nth_indep _ [] (map (fun c0 => f (r, c0)) (seq 0 w)))
    by now rewrite length_map, length_seq.
  rewrite (map_nth (fun r0 => map (fun c0 => f (r0, c0)) (seq 0 w)) (seq 0 h) r r).
  rewrite seq_nth by lia. simpl.
  rewrite (nth_indep _ 0 (f (r, c))) by now rewrite length_map, length_seq.
  rewrite (map_nth (fun c0 => f (r, c0)) (seq 0 w) c c).
  now rewrite seq_nth by lia.
Qed.

Lemma tabulate_ext h w f g :
  (forall p, In p (pixels_of h w) -> f p = g p) -> tabulate h w f = tabulate h w g.
Proof.
  intros H. unfold tabulate. apply map_ext_in. intros r Hr.
  apply map_ext_in. intros c Hc. apply H. apply in_pixels_of. simpl.
  apply in_seq in Hr, Hc. lia.
Qed.

Lemma pixel_eqb_eq p q : pixel_eqb p q = true <-> p = q.
Proof.
  destruct p, q. unfold pixel_eqb. simpl.
  rewrite andb_true_iff, !Nat.eqb_eq. split; [intros []; congruence|intros [= -> ->]; auto].
Qed.

Lemma pixel_eqb_refl p : pixel_eqb p p = true.
Proof. now apply pixel_eqb_eq. Qed.

Lemma pixels_eq_mask labels l : pixels (eq_mask labels l) = pixels labels.
Proof. unfold eq_mask. now rewrite pixels_tabulate. Qed.

Lemma pixels_zeros_like {A} (a : grid A) : pixels (zeros_like a) = pixels a.
Proof. unfold zeros_like. now rewrite pixels_tabulate. Qed.

(** ** np.unique *)

Lemma uinsert_In x l z : In z (uinsert x l) <-> z = x \/ In z l.
Proof.
  induction l as [|y t IH]; simpl.
  - intuition.
  - destruct (x <? y) eqn:E1; [simpl; intuition|].
    destruct (x =? y) eqn:E2.
    + apply Z.eqb_eq in E2. subst. simpl. intuition.
    + simpl. rewrite IH. intuition.
Qed.

Lemma np_unique_In a z : In z (np_unique a) <-> In z (flatten a).
Proof.
  unfold np_unique. induction (flatten a) as [|x t IH]; simpl; [tauto|].
  rewrite uinsert_In, IH. intuition.
Qed.

Lemma uinsert_sorted x l :
  StronglySorted Z.lt l -> StronglySorted Z.lt (uinsert x l).
Proof.
  induction 1 as [|y t Hs IH Hall]; simpl.
  - repeat constructor.
  - destruct (x <? y) eqn:E1.
    + apply Z.ltb_lt in E1. constructor; [now constructor|].
      constructor; [assumption|]. eapply Forall_impl; [|exact Hall]. simpl. lia.
    + destruct (x =? y) eqn:E2; [now constructor|].
      apply Z.ltb_ge in E1. apply Z.eqb_neq in E2.
      constructor; [assumption|].
      apply Forall_forall. intros z Hz. apply uinsert_In in Hz.
      destruct Hz as [->|Hz]; [lia|].
      rewrite Forall_forall in Hall. now apply Hall.
Qed.

Lemma np_unique_sorted a : StronglySorted Z.lt (np_unique a).
Proof.
  unfold np_unique. induction (flatten a); simpl; [constructor|now apply uinsert_sorted].
Qed.

Lemma sorted_NoDup l : StronglySorted Z.lt l -> NoDup l.
Proof.
  induction 1 as [|y t Hs IH Hall]; constructor; [|assumption].
  intros Hin. rewrite Forall_forall in Hall. specialize (Hall _ Hin). lia.
Qed.

Lemma unique_nuclei_In labels l :
  In l (unique_nuclei labels) <->
  0 < l /\ exists p, In p (pixels labels) /\ get labels p = l.
Proof.
  unfold unique_nuclei. rewrite filter_In, np_unique_In. unfold flatten.
  rewrite in_map_iff. split.
  - intros [[p [Hp Hin]] Hl]. split; [lia|eauto].
  - intros [Hl [p [Hin Hp]]]. split; [eauto|]. lia.
Qed.

Lemma unique_nuclei_NoDup labels : NoDup (unique_nuclei labels).
Proof. apply NoDup_filter, sorted_NoDup, np_unique_sorted. Qed.

(** ** regionprops of a one-nucleus mask *)

Lemma coords_of_eq_mask labels l :
  coords_of (eq_mask labels l) 1 = coords_of labels l.
Proof.
  unfold coords_of. rewrite pixels_eq_mask. apply filter_ext_in.
  intros p Hp. unfold eq_mask. rewrite get_tabulate by exact Hp.
  now destruct (get labels p =? l).
Qed.

Lemma amax_bounds a z :
  0 <= z -> (forall x, In x (flatten a) -> 0 <= x <= z) -> 0 <= amax a <= z.
Proof.
  intros Hz. unfold amax. induction (flatten a) as [|x t IH]; simpl; intros H.
  - lia.
  - assert (0 <= x <= z) by (apply H; now left).
    assert (0 <= fold_right Z.max 0 t <= z) by (apply IH; intros; apply H; now right).
    lia.
Qed.

Lemma amax_ge a x : In x (flatten a) -> x <= amax a.
Proof.
  unfold amax. induction (flatten a) as [|y t IH]; simpl; [tauto|].
  intros [->|H]; [lia|]. specialize (IH H). lia.
Qed.

Lemma amax_nonneg a : 0 <= amax a.
Proof. unfold amax. induction (flatten a); simpl; lia. Qed.

Lemma regionprops_eq_mask labels l :
  regionprops (eq_mask labels l) =
  match coords_of labels l with
  | [] => []
  | cs => [mkRegion 1 cs]
  end.
Proof.
  unfold regionprops.
  assert (Hb : 0 <= amax (eq_mask labels l) <= 1).
  { apply amax_bounds; [lia|]. intros x Hx. unfold flatten in Hx.
    apply in_map_iff in Hx. destruct Hx as [p [<- Hp]].
    rewrite pixels_eq_mask in Hp. unfold eq_mask.
    rewrite get_tabulate by exact Hp. destruct (get labels p =? l); lia. }
  destruct (coords_of labels l) as [|c cs] eqn:E.
  - assert (amax (eq_mask labels l) = 0 \/ amax (eq_mask labels l) = 1) as [->| ->] by lia;
      simpl; [reflexivity|].
    now rewrite coords_of_eq_mask, E.
  - assert (H1 : 1 <= amax (eq_mask labels l)).
    { apply amax_ge. unfold flatten. apply in_map_iff. exists c.
      assert (Hc : In c (coords_of labels l)) by (rewrite E; now left).
      unfold coords_of in Hc. apply filter_In in Hc. destruct Hc as [Hc Hv].
      rewrite pixels_eq_mask. split; [|assumption].
      unfold eq_mask. rewrite get_tabulate by exact Hc. now rewrite Hv. }
    replace (amax (eq_mask labels l)) with 1 by lia. simpl.
    now rewrite coords_of_eq_mask, E.
Qed.

Lemma coords_of_nonempty labels l :
  In l (unique_nuclei labels) -> coords_of labels l <> [].
Proof.
  intros H. apply unique_nuclei_In in H. destruct H as [_ [p [Hp Hv]]].
  intros E. assert (Hin : In p (coords_of labels l)).
  { unfold coords_of. apply filter_In. split; [assumption|]. now apply Z.eqb_eq. }
  rewrite E in Hin. contradiction.
Qed.

(** ** The relationship loop *)

Lemma py_int_mean_nonneg xs : 0 <= py_int (mean xs).
Proof.
  unfold py_int, mean. simpl. apply Z.quot_pos; lia.
Qed.

Lemma sum_nat_bound xs n :
  (forall x, In x xs -> (x < n)%nat) -> xs <> [] ->
  (sum_nat xs + length xs <= n * length xs)%nat.
Proof.
  induction xs as [|x t IH]; [congruence|].
  intros H _. simpl. assert (x < n)%nat by (apply H; now left).
  destruct t as [|y t'].
  - simpl. lia.
  - assert (sum_nat (y :: t') + length (y :: t') <= n * length (y :: t'))%nat.
    { apply IH; [intros; apply H; now right|discriminate]. }
    simpl in *. lia.
Qed.

Lemma py_int_mean_lt xs n :
  (forall x, In x xs -> (x < n)%nat) -> xs <> [] -> py_int (mean xs) < Z.of_nat n.
Proof.
  intros H Hne. pose proof (sum_nat_bound xs n H Hne) as Hs.
  unfold py_int, mean. simpl.
  assert (Hl : (0 < length xs)%nat) by (destruct xs; [congruence|simpl; lia]).
  rewrite Z.quot_div_nonneg by lia.
  apply Z.div_lt_upper_bound; [lia|].
  replace (Z.pos (Pos.of_nat (length xs))) with (Z.of_nat (length xs)).
  2:{ destruct (length xs) eqn:E; [lia|]. rewrite <- Pos.of_nat_succ, Zpos_P_of_succ_nat. lia. }
  nia.
Qed.

Lemma centroid_pixel_nonneg labels l :
  0 <= fst (centroid_pixel labels l) /\ 0 <= snd (centroid_pixel labels l).
Proof. split; apply py_int_mean_nonneg. Qed.

Lemma norm_index_ok i n : 0 <= i < Z.of_nat n -> norm_index i n = Ok (Z.to_nat i).
Proof.
  intros H. unfold norm_index.
  replace (0 <=? i) with true by (symmetry; apply Z.leb_le; lia).
  replace (i <? Z.of_nat n) with true by (symmetry; apply Z.ltb_lt; lia).
  reflexivity.
Qed.

Lemma centroid_in_mask_ok mask y x :
  0 <= y -> 0 <= x ->
  centroid_in_mask mask y x =
  Ok ((y <? Z.of_nat (shape0 mask)) && (x <? Z.of_nat (shape1 mask))
      && (get mask (Z.to_nat y, Z.to_nat x) >? 0)).
Proof.
  intros Hy Hx. unfold centroid_in_mask.
  destruct (y <? Z.of_nat (shape0 mask)) eqn:Ey; [|reflexivity].
  destruct (x <? Z.of_nat (shape1 mask)) eqn:Ex; [|reflexivity].
  apply Z.ltb_lt in Ey, Ex. simpl. unfold np_getitem.
  rewrite !norm_index_ok by lia. reflexivity.
Qed.

Lemma nucleus_step_ok labels mask st l :
  coords_of labels l <> [] ->
  nucleus_step labels mask st l = Ok (record_nucleus labels mask st l).
Proof.
  intros Hne. unfold nucleus_step. rewrite regionprops_eq_mask.
  destruct (coords_of labels l) as [|c cs] eqn:E; [congruence|].
  cbv zeta.
  assert (Hc : centroid {| label := 1; coords := c :: cs |} = nucleus_centroid labels l).
  { unfold nucleus_centroid. now rewrite E. }
  rewrite Hc. destruct (centroid_pixel_nonneg labels l) as [Hy Hx].
  unfold centroid_pixel in Hy, Hx. simpl in Hy, Hx.
  rewrite centroid_in_mask_ok by assumption.
  unfold record_nucleus, nucleus_inside, centroid_pixel. simpl.
  match goal with |- context [if ?b then _ else _] => destruct b end; reflexivity.
Qed.

Lemma count_true_false bs : count_true bs + count_false bs = Z.of_nat (length bs).
Proof.
  unfold count_true, count_false.
  induction bs as [|[] t IH]; cbn [filter negb length] in *; lia.
Qed.

Lemma loop_ok labels mask ls : forall st,
  (forall l, In l ls -> coords_of labels l <> []) ->
  foldM (nucleus_step labels mask) ls st =
  Ok (mkLoop (st_within st + count_true (map (nucleus_inside labels mask) ls))
             (st_outside st + count_false (map (nucleus_inside labels mask) ls))
             (st_centroids st ++ map (nucleus_centroid labels) ls)
             (st_in_myotube st ++ map (nucleus_inside labels mask) ls)).
Proof.
  induction ls as [|l t IH]; intros st H.
  - simpl. unfold count_true, count_false. simpl.
    rewrite !Z.add_0_r, !app_nil_r. now destruct st.
  - simpl. rewrite nucleus_step_ok by (apply H; now left). simpl.
    rewrite IH by (intros; apply H; now right).
    unfold record_nucleus, count_true, count_false. simpl.
    destruct (nucleus_inside labels mask l); simpl; rewrite <- !app_assoc; simpl;
      f_equal; f_equal; try lia.
    all: idtac.
Qed.

Lemma percentage_ok w t : 0 <= w <= t ->
  exists q, percentage w t = Ok q /\
    (0 < t -> (q == inject_Z w / inject_Z t * inject_Z 100)%Q) /\
    (t = 0 -> q = inject_Z 0) /\
    (inject_Z 0 <= q)%Q /\ (q <= inject_Z 100)%Q.
Proof.
  intros H. unfold percentage, py_truediv.
  destruct (t >? 0) eqn:E.
  - assert (Ht : 0 < t) by lia.
    replace (t =? 0) with false by (symmetry; apply Z.eqb_neq; lia). simpl.
    eexists. split; [reflexivity|]. split; [reflexivity|]. split; [lia|].
    assert (Ht' : (0 < inject_Z t)%Q).
    { change 0%Q with (inject_Z 0). rewrite <- Zlt_Qlt. exact Ht. }
    assert (Hq : (0 <= inject_Z w / inject_Z t)%Q /\ (inject_Z w / inject_Z t <= 1)%Q).
    { split.
      - apply Qle_shift_div_l; [exact Ht'|]. rewrite Qmult_0_l.
        change 0%Q with (inject_Z 0). rewrite <- Zle_Qle. lia.
      - apply Qle_shift_div_r; [exact Ht'|]. rewrite Qmult_1_l.
        rewrite <- Zle_Qle. lia. }
    destruct Hq as [H0 H1]. split.
    + change (inject_Z 0) with 0%Q. apply Qmult_le_0_compat; [exact H0|]. discriminate.
    + setoid_replace (inject_Z 100) with (1 * inject_Z 100)%Q at 2 by ring.
      apply Qmult_le_compat_r; [exact H1|]. discriminate.
  - eexists. split; [reflexivity|]. split; [lia|]. split; [reflexivity|].
    split; [apply Qle_refl|discriminate].
Qed.

(** ** Components *)

Lemma filter_length_mono {A} (f g : A -> bool) l :
  (forall x, In x l -> f x = true -> g x = true) ->
  (length (filter f l) <= length (filter g l))%nat.
Proof.
  induction l as [|x t IH]; intros H; simpl; [lia|].
  assert (IH' : (length (filter f t) <= length (filter g t))%nat)
    by (apply IH; intros; apply H; [now right|assumption]).
  destruct (f x) eqn:Ef.
  - rewrite (H x (or_introl eq_refl) Ef). simpl. lia.
  - destruct (g x); simpl; lia.
Qed.

Lemma filter_length_eq {A} (f g : A -> bool) l :
  (forall x, In x l -> f x = true -> g x = true) ->
  length (filter f l) = length (filter g l) ->
  filter f l = filter g l.
Proof.
  induction l as [|x t IH]; intros H Hlen; simpl in *; [reflexivity|].
  assert (Ht : forall y, In y t -> f y = true -> g y = true)
    by (intros; apply H; [now right|assumption]).
  pose proof (filter_length_mono f g t Ht) as Hm.
  destruct (f x) eqn:Ef.
  - rewrite (H x (or_introl eq_refl) Ef) in *. simpl in Hlen.
    f_equal. apply IH; [assumption|lia].
  - destruct (g x); simpl in Hlen; [lia|]. now apply IH.
Qed.

Lemma mem_In p S : mem p S = true <-> In p S.
Proof.
  unfold mem. rewrite existsb_exists. split.
  - intros [x [Hx E]]. apply pixel_eqb_eq in E. now subst.
  - intros H. exists p. split; [assumption|apply pixel_eqb_refl].
Qed.

Lemma touches_spec a S q :
  touches a S q = true <-> exists p, In p S /\ (p = q \/ linked a p q = true).
Proof.
  unfold touches. rewrite existsb_exists. split; intros [p [Hp H]]; exists p; split; auto.
  - apply orb_true_iff in H. destruct H as [H|H]; [left; now apply pixel_eqb_eq|now right].
  - apply orb_true_iff. destruct H as [->|H]; [left; apply pixel_eqb_refl|now right].
Qed.

Lemma expand_In a S q :
  In q (expand a S) <->
  In q (pixels a) /\ exists p, In p S /\ (p = q \/ linked a p q = true).
Proof. unfold expand. now rewrite filter_In, touches_spec. Qed.

Section Closure.
Variable a : ndarray.

Lemma canonical_expand S : canonical a (expand a S).
Proof. now exists (touches a S). Qed.

Lemma canonical_length S : canonical a S -> (length S <= length (pixels a))%nat.
Proof. intros [f ->]. apply filter_length_le. Qed.

Lemma expand_grows S f :
  S = filter f (pixels a) ->
  forall x, In x (pixels a) -> f x = true -> touches a S x = true.
Proof.
  intros -> x Hx Hf. apply touches_spec. exists x. split; [|now left].
  apply filter_In. auto.
Qed.

Lemma expand_incl S : canonical a S -> incl S (expand a S).
Proof.
  intros [f E] q Hq. apply expand_In. pose proof Hq as Hq'. rewrite E in Hq'.
  apply filter_In in Hq'. split; [tauto|]. exists q. auto.
Qed.

Lemma closure_incl fuel : forall S, canonical a S -> incl S (closure fuel a S).
Proof.
  induction fuel as [|fuel IH]; intros S HS; simpl; [apply incl_refl|].
  destruct (Nat.eqb _ _); [apply incl_refl|].
  eapply incl_tran; [apply expand_incl; assumption|].
  apply IH, canonical_expand.
Qed.

Lemma closure_fixpoint fuel : forall S,
  canonical a S -> (length (pixels a) < fuel + length S)%nat ->
  expand a (closure fuel a S) = closure fuel a S.
Proof.
  induction fuel as [|fuel IH]; intros S HS Hlen.
  - apply canonical_length in HS. simpl in Hlen. lia.
  - simpl. destruct HS as [f E].
    pose proof (filter_length_mono f (touches a S) (pixels a) (expand_grows S f E)) as Hm.
    fold (expand a S) in Hm. rewrite <- E in Hm.
    destruct (Nat.eqb (length (expand a S)) (length S)) eqn:El.
    + apply Nat.eqb_eq in El. unfold expand at 1. rewrite E at 2.
      symmetry. apply filter_length_eq; [apply expand_grows; exact E|].
      fold (expand a S). rewrite <- E. now symmetry.
    + apply Nat.eqb_neq in El. apply IH; [apply canonical_expand|lia].
Qed.

Lemma closure_sound p0 fuel : forall S,
  (forall s, In s S -> conn a p0 s) ->
  forall q, In q (closure fuel a S) -> conn a p0 q.
Proof.
  induction fuel as [|fuel IH]; intros S HS q Hq; simpl in Hq; [now apply HS|].
  destruct (Nat.eqb _ _); [now apply HS|].
  apply IH in Hq; [assumption|].
  intros s Hs. apply expand_In in Hs. destruct Hs as [Hin [p [Hp [->|Hl]]]].
  - now apply HS.
  - eapply conn_step; eauto.
Qed.

Lemma component_spec p q :
  In p (pixels a) -> (In q (component a p) <-> conn a p q).
Proof.
  intros Hp. unfold component.
  set (S0 := filter (pixel_eqb p) (pixels a)).
  assert (HS0 : canonical a S0) by now exists (pixel_eqb p).
  assert (Hp0 : In p S0) by (apply filter_In; split; [assumption|apply pixel_eqb_refl]).
  split.
  - apply closure_sound. intros s Hs. apply filter_In in Hs.
    destruct Hs as [Hs E]. apply pixel_eqb_eq in E. subst. now constructor.
  - intros Hc.
    assert (Hfix : expand a (closure (length (pixels a)) a S0)
                   = closure (length (pixels a)) a S0).
    { apply closure_fixpoint; [assumption|].
      assert (0 < length S0)%nat by (destruct S0; [contradiction|simpl; lia]). lia. }
    induction Hc as [p Hin|p q r Hc IH Hr Hl].
    + now apply closure_incl.
    + rewrite <- Hfix. apply expand_In. split; [assumption|].
      exists q. split; [|now right]. apply IH; assumption.
Qed.

Lemma conn_in_l p q : conn a p q -> In p (pixels a).
Proof. induction 1; assumption. Qed.

Lemma conn_in_r p q : conn a p q -> In q (pixels a).
Proof. induction 1; assumption. Qed.

Lemma conn_trans p q r : conn a p q -> conn a q r -> conn a p r.
Proof.
  intros Hpq Hqr. revert Hpq.
  induction Hqr as [q Hq|q m r Hqm IH Hr Hl]; intros Hpq; [assumption|].
  apply conn_step with m; auto.
Qed.

Lemma adj8_sym p q : adj8 p q = adj8 q p.
Proof.
  unfold adj8, pixel_eqb. destruct p as [r c], q as [r' c']. simpl.
  rewrite (Nat.eqb_sym r r'), (Nat.eqb_sym c c').
  destruct (Nat.eqb r' r && Nat.eqb c' c); simpl; [reflexivity|].
  destruct (Nat.leb r (S r')), (Nat.leb r' (S r)), (Nat.leb c (S c')), (Nat.leb c' (S c));
    reflexivity.
Qed.

Lemma linked_sym p q : linked a p q = linked a q p.
Proof. unfold linked. now rewrite adj8_sym, Z.eqb_sym. Qed.

Lemma linked_value p q : linked a p q = true -> get a p = get a q.
Proof. unfold linked. intros H. apply andb_true_iff in H. now apply Z.eqb_eq. Qed.

Lemma conn_sym p q : conn a p q -> conn a q p.
Proof.
  induction 1 as [p Hp|p q r Hpq IH Hr Hl]; [now constructor|].
  apply conn_trans with q; [|assumption].
  apply conn_step with r; [now constructor|eapply conn_in_l; eauto|].
  now rewrite linked_sym.
Qed.

Lemma conn_value p q : conn a p q -> get a p = get a q.
Proof.
  induction 1 as [|p q r _ IH _ Hl]; [reflexivity|].
  rewrite IH. now apply linked_value.
Qed.

End Closure.

(** ** The scan that numbers the components *)

Lemma index_of_zero p cs :
  index_of p cs = 0%nat <-> forall c, In c cs -> mem p c = false.
Proof.
  induction cs as [|c t IH]; simpl.
  - split; [intros _ c []|reflexivity].
  - destruct (mem p c) eqn:E.
    + split; [discriminate|]. intros H. specialize (H c (or_introl eq_refl)). congruence.
    + destruct (index_of p t) eqn:Et.
      * split; [|reflexivity]. intros _ c' [<-|Hc]; [assumption|].
        now apply (proj1 IH).
      * split; [discriminate|]. intros H.
        assert (S n = 0)%nat; [|discriminate].
        apply IH. intros c' Hc'. apply H. now right.
Qed.

Lemma index_of_covered p cs :
  existsb (mem p) cs = true <-> index_of p cs <> 0%nat.
Proof.
  rewrite index_of_zero, existsb_exists. split.
  - intros [c [Hc E]] H. rewrite (H c Hc) in E. discriminate.
  - intros H. destruct (existsb (mem p) cs) eqn:E.
    + now apply existsb_exists.
    + exfalso. apply H. intros c Hc.
      destruct (mem p c) eqn:Em; [|reflexivity].
      assert (existsb (mem p) cs = true) by (apply existsb_exists; eauto). congruence.
Qed.

Lemma index_of_le p cs : (index_of p cs <= length cs)%nat.
Proof.
  induction cs as [|c t IH]; simpl; [lia|].
  destruct (mem p c); [lia|]. destruct (index_of p t); lia.
Qed.

Lemma index_of_app_old p cs x :
  index_of p cs <> 0%nat -> index_of p (cs ++ x) = index_of p cs.
Proof.
  induction cs as [|c t IH]; simpl; [congruence|].
  destruct (mem p c); [reflexivity|].
  destruct (index_of p t) eqn:E; [congruence|].
  intros _. rewrite IH by congruence. reflexivity.
Qed.

Lemma index_of_app_new p cs c :
  index_of p cs = 0%nat ->
  index_of p (cs ++ [c]) = if mem p c then S (length cs) else 0%nat.
Proof.
  induction cs as [|c' t IH]; simpl.
  - intros _. now destruct (mem p c).
  - destruct (mem p c'); [discriminate|].
    destruct (index_of p t) eqn:E; [|discriminate].
    intros _. rewrite IH by reflexivity. now destruct (mem p c).
Qed.

Lemma index_of_ext p q cs :
  (forall c, In c cs -> mem p c = mem q c) -> index_of p cs = index_of q cs.
Proof.
  induction cs as [|c t IH]; simpl; intros H; [reflexivity|].
  rewrite (H c (or_introl eq_refl)).
  rewrite IH by (intros; apply H; now right). reflexivity.
Qed.

Lemma index_of_same p q cs :
  index_of p cs = index_of q cs -> index_of p cs <> 0%nat ->
  exists c, In c cs /\ mem p c = true /\ mem q c = true.
Proof.
  induction cs as [|c t IH]; simpl; [congruence|].
  destruct (mem p c) eqn:Ep, (mem q c) eqn:Eq.
  - intros _ _. exists c. auto.
  - destruct (index_of q t); discriminate.
  - destruct (index_of p t); discriminate.
  - destruct (index_of p t) eqn:E1, (index_of q t) eqn:E2; try congruence.
    intros [= ->] _. destruct IH as [c' [Hc' H]]; [congruence|congruence|].
    exists c'. split; [now right|assumption].
Qed.

Lemma index_of_nth p cs i :
  index_of p cs = S i -> mem p (nth i cs []) = true.
Proof.
  revert i. induction cs as [|c t IH]; simpl; intros i; [discriminate|].
  destruct (mem p c) eqn:E.
  - intros [= <-]. assumption.
  - destruct (index_of p t) eqn:Et; [discriminate|].
    intros [= <-]. now apply IH.
Qed.

Section Scan.
Variable a : ndarray.

Lemma rooted_nil : rooted a [].
Proof. intros i Hi. simpl in Hi. lia. Qed.

Lemma rooted_snoc found p :
  rooted a found -> In p (pixels a) -> get a p <> 0 -> index_of p found = 0%nat ->
  rooted a (found ++ [component a p]).
Proof.
  intros Hr Hp Hfg H0 i Hi. rewrite length_app in Hi. simpl in Hi.
  destruct (Nat.eq_dec i (length found)) as [->|Hne].
  - exists p. repeat split; try assumption.
    + rewrite app_nth2 by lia. now rewrite Nat.sub_diag.
    + rewrite index_of_app_new by assumption.
      replace (mem p (component a p)) with true; [reflexivity|].
      symmetry. apply mem_In, component_spec; [assumption|now constructor].
  - destruct (Hr i) as [r [Hin [Hfgr [Hn Hidx]]]]; [lia|].
    exists r. repeat split; try assumption.
    + rewrite app_nth1 by lia. assumption.
    + rewrite index_of_app_old; [assumption|]. rewrite Hidx. discriminate.
Qed.

Lemma scan_spec todo : forall found,
  incl todo (pixels a) -> rooted a found ->
  rooted a (scan a todo found) /\
  (forall p, index_of p found <> 0%nat ->
             index_of p (scan a todo found) = index_of p found) /\
  (forall p, In p todo -> get a p <> 0 -> index_of p (scan a todo found) <> 0%nat).
Proof.
  induction todo as [|p rest IH]; intros found Hincl Hr; simpl.
  - split; [assumption|split; [auto|intros p []]].
  - assert (Hrest : incl rest (pixels a)) by (intros x Hx; apply Hincl; now right).
    assert (Hp : In p (pixels a)) by (apply Hincl; now left).
    destruct ((get a p =? 0) || existsb (mem p) found) eqn:E.
    + destruct (IH found Hrest Hr) as [H1 [H2 H3]].
      split; [assumption|split; [assumption|]].
      intros q [<-|Hq] Hfg; [|now apply H3].
      apply orb_true_iff in E. destruct E as [E|E]; [apply Z.eqb_eq in E; congruence|].
      apply index_of_covered in E. rewrite H2; assumption.
    + apply orb_false_iff in E. destruct E as [E1 E2]. apply Z.eqb_neq in E1.
      assert (H0 : index_of p found = 0%nat).
      { destruct (index_of p found) eqn:Ei; [reflexivity|].
        assert (existsb (mem p) found = true) by (apply index_of_covered; congruence).
        congruence. }
      destruct (IH (found ++ [component a p]) Hrest
                  (rooted_snoc found p Hr Hp E1 H0)) as [H1 [H2 H3]].
      split; [assumption|split].
      * intros q Hq. rewrite H2; rewrite index_of_app_old; auto.
      * intros q [<-|Hq] Hfg; [|now apply H3].
        assert (Hi : index_of p (found ++ [component a p]) <> 0%nat).
        { rewrite index_of_app_new by assumption.
          replace (mem p (component a p)) with true; [discriminate|].
          symmetry. apply mem_In, component_spec; [assumption|now constructor]. }
        rewrite H2; assumption.
Qed.

Lemma components_rooted : rooted a (components a).
Proof. apply scan_spec; [apply incl_refl|apply rooted_nil]. Qed.

Lemma components_cover p :
  In p (pixels a) -> get a p <> 0 -> index_of p (components a) <> 0%nat.
Proof. intros. apply scan_spec; [apply incl_refl|apply rooted_nil|assumption|assumption]. Qed.

Lemma components_are_classes c :
  In c (components a) ->
  exists r, In r (pixels a) /\ get a r <> 0 /\ c = component a r.
Proof.
  intros Hc. apply (In_nth _ _ []) in Hc. destruct Hc as [i [Hi <-]].
  destruct (components_rooted i Hi) as [r [H1 [H2 [H3 _]]]]. eauto.
Qed.

Lemma get_measure_label p :
  In p (pixels a) -> get (measure_label a) p = Z.of_nat (index_of p (components a)).
Proof. intros Hp. unfold measure_label. now rewrite get_tabulate. Qed.

Lemma pixels_measure_label : pixels (measure_label a) = pixels a.
Proof. unfold measure_label. cbv zeta. now rewrite pixels_tabulate. Qed.

(** Background stays 0, foreground gets a positive label. *)
Lemma measure_label_zero p :
  In p (pixels a) -> (get (measure_label a) p = 0 <-> get a p = 0).
Proof.
  intros Hp. rewrite get_measure_label by assumption. split.
  - intros H. destruct (Z.eq_dec (get a p) 0) as [|Hfg]; [assumption|].
    pose proof (components_cover p Hp Hfg). lia.
  - intros Hbg. enough (index_of p (components a) = 0%nat) by lia.
    apply index_of_zero. intros c Hc.
    destruct (components_are_classes c Hc) as [r [Hr [Hfg ->]]].
    destruct (mem p (component a r)) eqn:E; [|reflexivity].
    apply mem_In, component_spec in E; [|assumption].
    apply conn_value in E. congruence.
Qed.

Lemma measure_label_range p :
  In p (pixels a) ->
  0 <= get (measure_label a) p <= Z.of_nat (length (components a)).
Proof.
  intros Hp. rewrite get_measure_label by assumption.
  pose proof (index_of_le p (components a)). lia.
Qed.

(** Two foreground pixels share a label exactly when they are connected. *)
Lemma measure_label_conn p q :
  In p (pixels a) -> In q (pixels a) -> get a p <> 0 ->
  (get (measure_label a) p = get (measure_label a) q <-> conn a p q).
Proof.
  intros Hp Hq Hfg. rewrite !get_measure_label by assumption. split.
  - intros H. apply Nat2Z.inj in H.
    destruct (index_of_same p q (components a) H (components_cover p Hp Hfg))
      as [c [Hc [Mp Mq]]].
    destruct (components_are_classes c Hc) as [r [Hr [_ ->]]].
    apply mem_In, component_spec in Mp, Mq; try assumption.
    apply conn_trans with r; [now apply conn_sym|assumption].
  - intros Hc. f_equal. apply index_of_ext. intros c Hin.
    destruct (components_are_classes c Hin) as [r [Hr [_ ->]]].
    destruct (mem p (component a r)) eqn:Ep, (mem q (component a r)) eqn:Eq; try reflexivity.
    + apply mem_In, component_spec in Ep; [|assumption].
      assert (In q (component a r))
        by (apply component_spec; [assumption|eapply conn_trans; eauto]).
      apply mem_In in H. congruence.
    + apply mem_In, component_spec in Eq; [|assumption].
      assert (In p (component a r)).
      { apply component_spec; [assumption|].
        eapply conn_trans; [eassumption|now apply conn_sym]. }
      apply mem_In in H. congruence.
Qed.

(** The labels are the dense range [1 .. number of components]. *)
Lemma measure_label_dense i :
  1 <= i <= Z.of_nat (length (components a)) ->
  exists p, In p (pixels a) /\ get (measure_label a) p = i.
Proof.
  intros Hi. destruct (components_rooted (Z.to_nat (i - 1))) as [r [Hr [_ [_ Hidx]]]]; [lia|].
  exists r. split; [assumption|]. rewrite get_measure_label by assumption.
  rewrite Hidx. lia.
Qed.

End Scan.

(** ** Painting regions into the filtered mask *)

Lemma np_setitem_tabulate h w g p v :
  In p (pixels_of h w) ->
  np_setitem (tabulate h w g) p v =
  Ok (tabulate h w (fun q => if pixel_eqb q p then v else g q)).
Proof.
  intros Hp. pose proof Hp as Hp'. apply in_pixels_of in Hp'. destruct Hp' as [Hr Hc].
  unfold np_setitem. rewrite shape0_tabulate, shape1_tabulate by lia.
  replace (Nat.ltb (fst p) h) with true by (symmetry; apply Nat.ltb_lt; lia).
  replace (Nat.ltb (snd p) w) with true by (symmetry; apply Nat.ltb_lt; lia).
  simpl. f_equal. apply tabulate_ext. intros q Hq.
  now rewrite get_tabulate.
Qed.

Lemma np_setitems_tabulate h w v cs : forall g,
  incl cs (pixels_of h w) ->
  np_setitems (tabulate h w g) cs v =
  Ok (tabulate h w (fun q => if mem q cs then v else g q)).
Proof.
  unfold np_setitems. induction cs as [|p t IH]; intros g Hincl; simpl.
  - reflexivity.
  - rewrite np_setitem_tabulate by (apply Hincl; now left). simpl.
    rewrite IH by (intros x Hx; apply Hincl; now right).
    f_equal. apply tabulate_ext. intros q _. unfold mem. simpl.
    destruct (pixel_eqb q p); simpl; [|reflexivity].
    now destruct (existsb (pixel_eqb q) t).
Qed.

Lemma region_fold m h w rs : forall c t g,
  (forall r, In r rs -> incl (coords r) (pixels_of h w)) ->
  foldM (region_step m) rs (mkFilter c t (tabulate h w g)) =
  Ok (mkFilter (c + Z.of_nat (length (filter (passes m) rs)))
               (t + sum_Z (map area (filter (passes m) rs)))
               (tabulate h w (fun q => if painted m rs q then 255 else g q))).
Proof.
  induction rs as [|r rest IH]; intros c t g Hin; simpl.
  - rewrite !Z.add_0_r. reflexivity.
  - assert (Hrest : forall r', In r' rest -> incl (coords r') (pixels_of h w))
      by (intros; apply Hin; now right).
    unfold region_step at 1. fold (passes m r).
    destruct (passes m r) eqn:E; simpl.
    + rewrite np_setitems_tabulate by (apply Hin; now left). simpl.
      rewrite IH by assumption. f_equal. f_equal; [lia|lia|].
      apply tabulate_ext. intros q _. unfold painted.
      destruct (mem q (coords r)); simpl; [|reflexivity].
      now destruct (existsb _ rest).
    + rewrite IH by assumption. reflexivity.
Qed.

(** ** regionprops as a list of label classes *)

Lemma regionprops_In L r :
  In r (regionprops L) <->
  1 <= label r <= amax L /\ coords r = coords_of L (label r) /\ coords r <> [].
Proof.
  unfold regionprops, labels_upto. rewrite in_flat_map. split.
  - intros [l [Hl Hr]]. apply in_map_iff in Hl. destruct Hl as [n [<- Hn]].
    apply in_seq in Hn. destruct (coords_of L (Z.of_nat n)) eqn:E; [contradiction|].
    destruct Hr as [<-|[]]. simpl. rewrite E. repeat split; try lia; discriminate.
  - intros [Hl [Hc Hne]]. exists (label r). split.
    + apply in_map_iff. exists (Z.to_nat (label r)). split; [lia|]. apply in_seq. lia.
    + destruct r as [l cs]. simpl in *. subst cs.
      destruct (coords_of L l); [congruence|]. now left.
Qed.

Lemma coords_of_In L l q : In q (coords_of L l) <-> In q (pixels L) /\ get L q = l.
Proof. unfold coords_of. rewrite filter_In, Z.eqb_eq. tauto. Qed.

Lemma regionprops_labels_NoDup L : NoDup (map label (regionprops L)).
Proof.
  unfold regionprops, labels_upto.
  assert (Hnd : NoDup (map Z.of_nat (seq 1 (Z.to_nat (amax L))))).
  { apply Finite.Injective_map_NoDup; [intros x y; apply Nat2Z.inj|apply seq_NoDup]. }
  induction (map Z.of_nat (seq 1 (Z.to_nat (amax L)))) as [|l t IH]; simpl; [constructor|].
  inversion Hnd as [|? ? Hnot Hnd']; subst.
  rewrite map_app. destruct (coords_of L l) eqn:E; simpl; [now apply IH|].
  constructor; [|now apply IH].
  intros Hin. apply Hnot. apply in_map_iff in Hin. destruct Hin as [r [Hl Hr]].
  apply in_flat_map in Hr. destruct Hr as [l' [Hl' Hr]].
  destruct (coords_of L l'); [contradiction|]. destruct Hr as [<-|[]].
  simpl in Hl. now subst.
Qed.

(** ** Regions are components *)

Lemma closure_canonical a fuel : forall S, canonical a S -> canonical a (closure fuel a S).
Proof.
  induction fuel as [|fuel IH]; intros S HS; simpl; [assumption|].
  destruct (Nat.eqb _ _); [assumption|]. apply IH, canonical_expand.
Qed.

Lemma component_canonical a p : canonical a (component a p).
Proof. apply closure_canonical. now exists (pixel_eqb p). Qed.

Lemma canonical_filter_mem a S :
  canonical a S -> filter (fun q => mem q S) (pixels a) = S.
Proof.
  intros [f ->]. apply filter_ext_in. intros q Hq.
  destruct (f q) eqn:E.
  - apply mem_In, filter_In. auto.
  - destruct (mem q (filter f (pixels a))) eqn:Em; [|reflexivity].
    apply mem_In, filter_In in Em. destruct Em. congruence.
Qed.

Lemma canonical_ext a S T :
  canonical a S -> canonical a T ->
  (forall q, In q (pixels a) -> (In q S <-> In q T)) -> S = T.
Proof.
  intros HS HT H. rewrite <- (canonical_filter_mem a S HS), <- (canonical_filter_mem a T HT).
  apply filter_ext_in. intros q Hq. specialize (H q Hq).
  destruct (mem q S) eqn:E1, (mem q T) eqn:E2; try reflexivity.
  - apply mem_In, H, mem_In in E1. congruence.
  - apply mem_In, H, mem_In in E2. congruence.
Qed.

Lemma component_conn_eq a p r : conn a p r -> component a p = component a r.
Proof.
  intros Hc. pose proof (conn_in_l a _ _ Hc) as Hp. pose proof (conn_in_r a _ _ Hc) as Hr.
  apply (canonical_ext a); try apply component_canonical.
  intros q Hq. rewrite !component_spec by assumption. split; intros H.
  - apply conn_trans with p; [now apply conn_sym|assumption].
  - apply conn_trans with r; assumption.
Qed.

Lemma coords_of_label_component a p :
  In p (pixels a) -> get a p <> 0 ->
  coords_of (measure_label a) (get (measure_label a) p) = component a p.
Proof.
  intros Hp Hfg. unfold coords_of. rewrite pixels_measure_label.
  rewrite <- (canonical_filter_mem a (component a p) (component_canonical a p)).
  apply filter_ext_in. intros q Hq.
  destruct (mem q (component a p)) eqn:E.
  - apply Z.eqb_eq. symmetry. apply measure_label_conn; try assumption.
    apply component_spec; [assumption|now apply mem_In].
  - apply Z.eqb_neq. intros Heq. symmetry in Heq.
    apply measure_label_conn in Heq; try assumption.
    apply component_spec, mem_In in Heq; [congruence|assumption].
Qed.

Lemma region_of_pixel a p :
  In p (pixels a) -> get a p <> 0 ->
  In (mkRegion (get (measure_label a) p) (component a p)) (regionprops (measure_label a)).
Proof.
  intros Hp Hfg. apply regionprops_In. simpl.
  pose proof (measure_label_range a p Hp) as Hr.
  pose proof (proj1 (measure_label_zero a p Hp)) as Hz.
  split; [|split].
  - split; [lia|]. apply amax_ge. unfold flatten. apply in_map_iff. exists p.
    split; [reflexivity|]. now rewrite pixels_measure_label.
  - symmetry. now apply coords_of_label_component.
  - intros E. assert (In p (component a p))
      by (apply component_spec; [assumption|now constructor]).
    rewrite E in H. contradiction.
Qed.

Lemma painted_survives m a q :
  In q (pixels a) ->
  painted m (regionprops (measure_label a)) q = survives m a q.
Proof.
  intros Hq. unfold painted, survives.
  destruct (Z.eq_dec (get a q) 0) as [Hbg|Hfg].
  - replace (get a q =? 0) with true by (symmetry; now apply Z.eqb_eq). simpl.
    destruct (existsb _ _) eqn:E; [|reflexivity].
    apply existsb_exists in E. destruct E as [r [Hr Hpm]].
    apply andb_true_iff in Hpm. destruct Hpm as [_ Hm]. apply mem_In in Hm.
    apply regionprops_In in Hr. destruct Hr as [Hl [Hc _]].
    rewrite Hc in Hm. apply coords_of_In in Hm. destruct Hm as [_ Hm].
    apply (measure_label_zero a q Hq) in Hbg. lia.
  - replace (get a q =? 0) with false by (symmetry; now apply Z.eqb_neq). simpl.
    unfold component_area.
    destruct (Z.of_nat (length (component a q)) >=? m) eqn:Em.
    + apply existsb_exists. eexists. split; [apply (region_of_pixel a q Hq Hfg)|].
      unfold passes, area. simpl. rewrite Em. simpl.
      apply mem_In, component_spec; [assumption|now constructor].
    + destruct (existsb _ _) eqn:E; [|reflexivity].
      apply existsb_exists in E. destruct E as [r [Hr Hpm]].
      apply andb_true_iff in Hpm. destruct Hpm as [Hpass Hm]. apply mem_In in Hm.
      apply regionprops_In in Hr. destruct Hr as [Hl [Hc _]].
      pose proof Hm as Hm'. rewrite Hc in Hm'. apply coords_of_In in Hm'.
      destruct Hm' as [_ Hlab]. rewrite <- Hlab in Hc.
      rewrite coords_of_label_component in Hc by assumption.
      unfold passes, area in Hpass. rewrite Hc in Hpass. congruence.
Qed.

Lemma regionprops_coords_incl a r :
  In r (regionprops (measure_label a)) ->
  incl (coords r) (pixels_of (shape0 a) (shape1 a)).
Proof.
  intros Hr q Hq. apply regionprops_In in Hr. destruct Hr as [_ [Hc _]].
  rewrite Hc in Hq. apply coords_of_In in Hq. destruct Hq as [Hq _].
  now rewrite pixels_measure_label in Hq.
Qed.

Lemma filter_regions_ok m a :
  filter_regions m a =
  Ok (mkFilter (Z.of_nat (length (kept_regions m a)))
               (sum_Z (map area (kept_regions m a)))
               (survivors_mask m a)).
Proof.
  unfold filter_regions, zeros_like, survivors_mask. cbv zeta.
  rewrite region_fold by (intros r Hr; now apply regionprops_coords_incl).
  simpl. f_equal. f_equal. apply tabulate_ext. intros q Hq.
  now rewrite painted_survives.
Qed.

(** Every region handed to the loop is one connected component. *)
Lemma regionprops_component a r :
  In r (regionprops (measure_label a)) ->
  exists p, In p (pixels a) /\ get a p <> 0 /\
            label r = get (measure_label a) p /\ coords r = component a p.
Proof.
  intros Hr. apply regionprops_In in Hr. destruct Hr as [Hl [Hc Hne]].
  destruct (coords r) as [|p cs] eqn:E; [congruence|].
  assert (Hp : In p (coords_of (measure_label a) (label r))) by (rewrite <- Hc; now left).
  apply coords_of_In in Hp. destruct Hp as [Hp Hlab]. rewrite pixels_measure_label in Hp.
  assert (Hfg : get a p <> 0).
  { intros Hbg. apply (measure_label_zero a p Hp) in Hbg. lia. }
  exists p. repeat split; try assumption; [now symmetry|].
  rewrite Hc, <- Hlab. now apply coords_of_label_component.
Qed.

(** ** Filtering a filtered mask *)

Section Idempotence.
Variable a : ndarray.
Variable m : Z.
Hypothesis a_binary : forall p, In p (pixels a) -> get a p = 0 \/ get a p = 255.

Local Abbreviation F := (survivors_mask m a).

Lemma pixels_F : pixels F = pixels a.
Proof. unfold survivors_mask. now rewrite pixels_tabulate. Qed.

Lemma get_F q : In q (pixels a) -> get F q = if survives m a q then 255 else 0.
Proof. intros Hq. unfold survivors_mask. now rewrite get_tabulate. Qed.

Lemma survives_fg q : survives m a q = true -> get a q <> 0.
Proof.
  unfold survives. intros H. apply andb_true_iff in H. destruct H as [H _].
  apply negb_true_iff, Z.eqb_neq in H. assumption.
Qed.

Lemma survives_conn p r : conn a p r -> survives m a p = survives m a r.
Proof.
  intros Hc. unfold survives, component_area.
  now rewrite (conn_value a p r Hc), (component_conn_eq a p r Hc).
Qed.

Lemma conn_F_of_a p q : survives m a p = true -> conn a p q -> conn F p q.
Proof.
  intros Hs Hc. induction Hc as [p Hp|p q r Hpq IH Hr Hl].
  - constructor. now rewrite pixels_F.
  - specialize (IH Hs). apply conn_step with q; [assumption|now rewrite pixels_F|].
    assert (Hsq : survives m a q = true) by (rewrite <- (survives_conn p q); assumption).
    assert (Hsr : survives m a r = true).
    { rewrite <- (survives_conn p r); [assumption|]. eapply conn_step; eauto. }
    unfold linked in *. apply andb_true_iff in Hl. destruct Hl as [Hadj _].
    rewrite Hadj. simpl. rewrite !get_F by (assumption || eapply conn_in_r; eauto).
    now rewrite Hsq, Hsr.
Qed.

Lemma conn_a_of_F p q : survives m a p = true -> conn F p q -> conn a p q.
Proof.
  intros Hs Hc. induction Hc as [p Hp|p q r Hpq IH Hr Hl].
  - constructor. now rewrite <- pixels_F.
  - specialize (IH Hs). rewrite pixels_F in Hr.
    apply conn_step with q; [assumption|assumption|].
    assert (Hq : In q (pixels a)) by (eapply conn_in_r; eauto).
    assert (Hsq : survives m a q = true) by (rewrite <- (survives_conn p q); assumption).
    unfold linked in *. apply andb_true_iff in Hl. destruct Hl as [Hadj Hv].
    rewrite Hadj. simpl. apply Z.eqb_eq in Hv. rewrite !get_F in Hv by assumption.
    rewrite Hsq in Hv. destruct (survives m a r) eqn:Hsr; [|discriminate].
    apply survives_fg in Hsq, Hsr.
    destruct (a_binary q Hq), (a_binary r Hr); try congruence.
    apply Z.eqb_eq. congruence.
Qed.

Lemma component_F p :
  In p (pixels a) -> survives m a p = true -> component F p = component a p.
Proof.
  intros Hp Hs. apply (canonical_ext a).
  - destruct (component_canonical F p) as [f E]. exists f. now rewrite <- pixels_F.
  - apply component_canonical.
  - intros q Hq. rewrite component_spec by now rewrite pixels_F.
    rewrite component_spec by assumption.
    split; [now apply conn_a_of_F|now apply conn_F_of_a].
Qed.

Lemma survives_F q : In q (pixels a) -> survives m F q = survives m a q.
Proof.
  intros Hq. destruct (survives m a q) eqn:Hs.
  - unfold survives, component_area. rewrite get_F, Hs by assumption. simpl.
    rewrite component_F by assumption.
    unfold survives, component_area in Hs. apply andb_true_iff in Hs. tauto.
  - unfold survives. rewrite get_F, Hs by assumption. reflexivity.
Qed.

Lemma refilter_mask : survivors_mask m F = F.
Proof.
  unfold survivors_mask at 1 3. destruct (shape0 a) as [|h] eqn:Eh.
  - unfold survivors_mask. rewrite Eh. reflexivity.
  - assert (E0 : shape0 F = S h)
      by (unfold survivors_mask; rewrite Eh; apply shape0_tabulate).
    assert (E1 : shape1 F = shape1 a)
      by (unfold survivors_mask; rewrite Eh; apply shape1_tabulate; lia).
    rewrite E0, E1. apply tabulate_ext. intros q Hq.
    rewrite survives_F; [reflexivity|]. unfold pixels. now rewrite Eh.
Qed.

(** The surviving regions of both passes cover the same pixel sets. *)
Lemma kept_coords_In c :
  In c (map coords (kept_regions m a)) <->
  exists p, In p (pixels a) /\ survives m a p = true /\ c = component a p.
Proof.
  unfold kept_regions. rewrite in_map_iff. split.
  - intros [r [<- Hr]]. apply filter_In in Hr. destruct Hr as [Hr Hpass].
    destruct (regionprops_component a r Hr) as [p [Hp [Hfg [_ Hc]]]].
    exists p. split; [assumption|]. split; [|assumption].
    unfold survives, component_area. unfold passes, area in Hpass.
    rewrite <- Hc, Hpass.
    replace (get a p =? 0) with false by (symmetry; now apply Z.eqb_neq). reflexivity.
  - intros [p [Hp [Hs ->]]]. pose proof (survives_fg p Hs) as Hfg.
    exists (mkRegion (get (measure_label a) p) (component a p)). split; [reflexivity|].
    apply filter_In. split; [now apply region_of_pixel|].
    unfold survives, component_area in Hs. apply andb_true_iff in Hs.
    unfold passes, area. simpl. tauto.
Qed.

End Idempotence.

Lemma regionprops_coords_inj L r1 r2 :
  In r1 (regionprops L) -> In r2 (regionprops L) -> coords r1 = coords r2 -> r1 = r2.
Proof.
  intros H1 H2 E. apply regionprops_In in H1, H2.
  destruct H1 as [_ [C1 N1]], H2 as [_ [C2 _]].
  destruct (coords r1) as [|q cs] eqn:Eq; [congruence|].
  assert (Q1 : In q (coords_of L (label r1))) by (rewrite <- C1; now left).
  assert (Q2 : In q (coords_of L (label r2))) by (rewrite <- C2, <- E; now left).
  apply coords_of_In in Q1, Q2. destruct r1, r2. simpl in *. f_equal; [|congruence].
  destruct Q1, Q2. congruence.
Qed.

Lemma regionprops_NoDup L : NoDup (regionprops L).
Proof. eapply NoDup_map_inv. apply regionprops_labels_NoDup. Qed.

Lemma kept_coords_NoDup m a : NoDup (map coords (kept_regions m a)).
Proof.
  unfold kept_regions. apply Finite.Injective_map_NoDup_in.
  - intros r1 r2 H1 H2. apply filter_In in H1, H2.
    apply (regionprops_coords_inj (measure_label a)); tauto.
  - apply NoDup_filter, regionprops_NoDup.
Qed.

Lemma sum_lengths_perm (l1 l2 : list (list pixel)) :
  Permutation l1 l2 ->
  sum_Z (map (fun c => Z.of_nat (length c)) l1) = sum_Z (map (fun c => Z.of_nat (length c)) l2).
Proof. induction 1; simpl; lia. Qed.

Lemma is_binary_spec a :
  is_binary a = true -> forall p, In p (pixels a) -> get a p = 0 \/ get a p = 255.
Proof.
  unfold is_binary. rewrite forallb_forall. intros H p Hp. specialize (H p Hp).
  apply orb_true_iff in H. rewrite !Z.eqb_eq in H. exact H.
Qed.

Lemma kept_regions_refilter m a :
  is_binary a = true ->
  Permutation
    (map coords (kept_regions m a))
    (map coords (kept_regions m (survivors_mask m a))).
Proof.
  intros Hbin. pose proof (is_binary_spec a Hbin) as Hb.
  apply NoDup_Permutation; try apply kept_coords_NoDup.
  intros c. rewrite !kept_coords_In. split.
  - intros [p [Hp [Hs ->]]]. exists p. rewrite pixels_F. split; [assumption|].
    split; [now rewrite survives_F|].
    symmetry. now apply component_F.
  - intros [p [Hp [Hs ->]]]. rewrite pixels_F in Hp. exists p. split; [assumption|].
    rewrite survives_F in Hs by assumption.
    split; [assumption|]. now apply component_F.
Qed.

Lemma kept_regions_count_refilter m a :
  is_binary a = true ->
  length (kept_regions m (survivors_mask m a)) = length (kept_regions m a).
Proof.
  intros Hb. pose proof (Permutation_length (kept_regions_refilter m a Hb)) as H.
  rewrite !length_map in H. now symmetry.
Qed.

Lemma kept_regions_area_refilter m a :
  is_binary a = true ->
  sum_Z (map area (kept_regions m (survivors_mask m a)))
  = sum_Z (map area (kept_regions m a)).
Proof.
  intros Hb. pose proof (sum_lengths_perm _ _ (kept_regions_refilter m a Hb)) as H.
  rewrite !map_map in H. symmetry. exact H.
Qed.

Lemma survives_small m a p :
  component_area a p < m -> survives m a p = false.
Proof.
  intros H. unfold survives.
  replace (component_area a p >=? m) with false; [apply andb_false_r|].
  symmetry. rewrite Z.geb_leb. apply Z.leb_gt. exact H.
Qed.

(** C6. After the morphological cleanup, the components of fewer than 100
    pixels are discarded: the filtered mask is 255 exactly on the foreground
    pixels whose 8-connected component has at least 100 pixels and 0
    elsewhere (so every pixel of a smaller component is background);
    [myotube_count] is the number of remaining regions and
    [total_myotube_area] the sum of their areas; the remaining regions are
    exactly the connected components of at least 100 pixels, each listed
    once. *)
Theorem area_filter_discards_small_components (closed : ndarray) :
  exists fs,
    area_filter closed = Ok fs /\
    same_shape (fs_filtered fs) closed /\
    (forall p, In p (pixels closed) ->
       get (fs_filtered fs) p = if survives 100 closed p then 255 else 0) /\
    (forall p, In p (pixels closed) -> component_area closed p < 100 ->
       get (fs_filtered fs) p = 0) /\
    fs_count fs = Z.of_nat (length (kept_regions 100 closed)) /\
    fs_total_area fs = sum_Z (map area (kept_regions 100 closed)) /\
    (forall r, In r (kept_regions 100 closed) <->
       In r (regionprops (measure_label closed)) /\ 100 <= area r) /\
    (forall r, In r (kept_regions 100 closed) ->
       exists p, In p (pixels closed) /\ get closed p <> 0 /\
                 coords r = component closed p) /\
    (forall p, In p (pixels closed) -> survives 100 closed p = true ->
       In (component closed p) (map coords (kept_regions 100 closed))) /\
    NoDup (map coords (kept_regions 100 closed)).
Proof.
  unfold area_filter, min_area. rewrite filter_regions_ok.
  eexists. split; [reflexivity|]. simpl.
  split; [apply pixels_F|].
  split; [intros p Hp; now apply get_F|].
  split.
  { intros p Hp Hsmall. rewrite get_F by assumption.
    now rewrite survives_small. }
  split; [reflexivity|]. split; [reflexivity|]. split.
  - intros r. unfold kept_regions, passes. rewrite filter_In.
    rewrite Z.geb_leb, Z.leb_le. tauto.
  - split; [|split].
    + intros r Hr. unfold kept_regions in Hr. apply filter_In in Hr.
      destruct Hr as [Hr _].
      destruct (regionprops_component closed r Hr) as [p [Hp [Hfg [_ Hc]]]]. eauto.
    + intros p Hp Hs. apply kept_coords_In. eauto.
    + apply kept_coords_NoDup.
Qed.

(** C7. Area filtering is idempotent on binary masks: labelling and
    filtering the already filtered mask gives the same mask, the same
    component count and the same total area. *)
Theorem area_filter_idempotent (closed : ndarray) :
  is_binary closed = true ->
  exists fs,
    area_filter closed = Ok fs /\
    area_filter (fs_filtered fs) = Ok fs.
Proof.
  intros Hb. unfold area_filter. rewrite filter_regions_ok.
  eexists. split; [reflexivity|]. simpl.
  rewrite filter_regions_ok.
  rewrite kept_regions_count_refilter, kept_regions_area_refilter by assumption.
  rewrite refilter_mask; [reflexivity|]. now apply is_binary_spec.
Qed.

Lemma area_filter_idempotent_witness :
  is_binary speckled = true /\
  exists fs, area_filter speckled = Ok fs /\ area_filter (fs_filtered fs) = Ok fs.
Proof.
  split; [reflexivity|]. apply (area_filter_idempotent speckled). reflexivity.
Defined.

Example area_filter_speckled :
  exists f, area_filter speckled = Ok (mkFilter 1 100 f) /\
            get f (0, 0)%nat = 255 /\ get f (11, 0)%nat = 0.
Proof. eexists. split; [vm_compute; reflexivity|]. split; reflexivity. Qed.

(** ** The relationship analysis on arbitrary label maps and masks *)

Lemma relationship_core_ok labels mask :
  let U := unique_nuclei labels in
  let fl := map (nucleus_inside labels mask) U in
  exists pct,
    percentage (count_true fl) (count_true fl + count_false fl) = Ok pct /\
    relationship_core labels mask =
    Ok (mkRelationship (count_true fl + count_false fl) (count_true fl) (count_false fl)
          pct (map (nucleus_centroid labels) U) fl).
Proof.
  intros U fl. unfold relationship_core.
  rewrite loop_ok by (intros l Hl; now apply coords_of_nonempty).
  simpl. fold U. fold fl.
  destruct (percentage_ok (count_true fl) (count_true fl + count_false fl))
    as [q [Hq _]].
  { unfold count_true, count_false. lia. }
  exists q. split; [assumption|]. now rewrite Hq.
Qed.

Lemma nucleus_inside_spec labels mask l :
  nucleus_inside labels mask l = true <-> foreground_at mask (centroid_pixel labels l).
Proof.
  unfold nucleus_inside, foreground_at.
  destruct (centroid_pixel_nonneg labels l) as [Hy Hx].
  rewrite !andb_true_iff, !Z.ltb_lt, Z.gtb_lt. lia.
Qed.

(** C2. The percentage of nuclei within myotubes is computed without a
    division fault for every label map and mask; it equals
    within / (within + outside) * 100 when at least one nucleus was
    classified, is exactly 0 when there is none, and lies in [0, 100]. *)
Theorem percentage_within_myotubes_guarded (nuclei_labels myotube_mask : ndarray) :
  exists res,
    relationship_core nuclei_labels myotube_mask = Ok res /\
    percentage (nuclei_within_myotubes res)
      (nuclei_within_myotubes res + nuclei_outside_myotubes res)
      = Ok (percentage_within_myotubes res) /\
    (0 < nuclei_within_myotubes res + nuclei_outside_myotubes res ->
       (percentage_within_myotubes res ==
          inject_Z (nuclei_within_myotubes res)
          / inject_Z (nuclei_within_myotubes res + nuclei_outside_myotubes res)
          * inject_Z 100)%Q) /\
    (nuclei_within_myotubes res + nuclei_outside_myotubes res = 0 ->
       percentage_within_myotubes res = inject_Z 0) /\
    (unique_nuclei nuclei_labels = [] -> percentage_within_myotubes res = inject_Z 0) /\
    (inject_Z 0 <= percentage_within_myotubes res)%Q /\
    (percentage_within_myotubes res <= inject_Z 100)%Q.
Proof.
  destruct (relationship_core_ok nuclei_labels myotube_mask) as [pct [Hp Hc]].
  eexists. split; [exact Hc|]. simpl.
  set (fl := map (nucleus_inside nuclei_labels myotube_mask) (unique_nuclei nuclei_labels)) in *.
  destruct (percentage_ok (count_true fl) (count_true fl + count_false fl))
    as [q [Hq [H1 [H2 [H3 H4]]]]].
  { unfold count_true, count_false. lia. }
  rewrite Hq in Hp. injection Hp as <-.
  split; [assumption|]. split; [assumption|]. split; [assumption|].
  split; [|split; assumption].
  intros HU. apply H2. unfold fl. rewrite HU. reflexivity.
Qed.

(** C3 (as the code has it). Every labelled nucleus is classified without
    error, and it is classified as within a myotube exactly when the
    truncated centroid coordinate [(int(cy), int(cx))] lies inside the mask
    bounds and the mask is foreground there; a coordinate outside the
    bounds therefore gives "outside". *)
Theorem nucleus_classified_at_truncated_centroid (nuclei_labels myotube_mask : ndarray) :
  exists res,
    relationship_core nuclei_labels myotube_mask = Ok res /\
    nuclei_centroids res
      = map (nucleus_centroid nuclei_labels) (unique_nuclei nuclei_labels) /\
    Forall2 (fun l b => b = true <->
                        foreground_at myotube_mask (centroid_pixel nuclei_labels l))
      (unique_nuclei nuclei_labels) (nuclei_in_myotube res).
Proof.
  destruct (relationship_core_ok nuclei_labels myotube_mask) as [pct [_ Hc]].
  eexists. split; [exact Hc|]. simpl. split; [reflexivity|]. clear Hc.
  induction (unique_nuclei nuclei_labels) as [|l t IH]; simpl; constructor.
  - apply nucleus_inside_spec.
  - exact IH.
Qed.

(** C3 as stated fails: the nucleus of [corner_labels] has centroid
    (2/3, 1/3); the mask is foreground at the nearest pixel (1, 0), yet the
    code looks at (0, 0) and classifies the nucleus as outside. *)
Lemma nearest_pixel_classification_fails :
  unique_nuclei corner_labels = [1] /\
  nucleus_centroid corner_labels 1 = (2 # 3, 1 # 3)%Q /\
  nearest_pixel corner_labels 1 = (1, 0) /\
  foreground_at corner_mask (nearest_pixel corner_labels 1) /\
  exists res, relationship_core corner_labels corner_mask = Ok res /\
              nuclei_in_myotube res = [false] /\
              nuclei_outside_myotubes res = 1.
Proof.
  split; [reflexivity|]. split; [reflexivity|]. split; [reflexivity|].
  split.
  { replace (nearest_pixel corner_labels 1) with (1, 0) by reflexivity.
    unfold foreground_at. change (get corner_mask _) with 255. simpl. lia. }
  eexists. split; [vm_compute; reflexivity|]. split; reflexivity.
Qed.

Lemma coords_of_pixels labels l q :
  In q (coords_of labels l) -> (fst q < shape0 labels)%nat /\ (snd q < shape1 labels)%nat.
Proof.
  intros H. unfold coords_of in H. apply filter_In in H. destruct H as [H _].
  now apply in_pixels_of in H.
Qed.

Lemma centroid_pixel_bounds labels l :
  In l (unique_nuclei labels) ->
  0 <= fst (centroid_pixel labels l) < Z.of_nat (shape0 labels) /\
  0 <= snd (centroid_pixel labels l) < Z.of_nat (shape1 labels).
Proof.
  intros Hl. pose proof (coords_of_nonempty labels l Hl) as Hne.
  destruct (centroid_pixel_nonneg labels l) as [Hy Hx].
  split; (split; [assumption|]); unfold centroid_pixel, nucleus_centroid, centroid; simpl.
  - apply py_int_mean_lt.
    + intros x Hin. apply in_map_iff in Hin. destruct Hin as [q [<- Hq]].
      now apply coords_of_pixels in Hq.
    + intros E. apply map_eq_nil in E. contradiction.
  - apply py_int_mean_lt.
    + intros x Hin. apply in_map_iff in Hin. destruct Hin as [q [<- Hq]].
      now apply coords_of_pixels in Hq.
    + intros E. apply map_eq_nil in E. contradiction.
Qed.

(** C10. In an H x W label map the truncated centroid of every nucleus
    satisfies 0 <= y < H and 0 <= x < W, although the code tests only the
    upper bounds.  With a mask of the same shape the guard of line 83 is
    therefore always true, the lookup [mask[y, x]] never raises IndexError
    (and never wraps a negative index), and each flag is just
    [mask[y, x] > 0]: the "outside because out of bounds" branch is never
    taken. *)
Theorem centroid_lookup_in_bounds (nuclei_labels : ndarray) :
  (forall l, In l (unique_nuclei nuclei_labels) ->
     0 <= fst (centroid_pixel nuclei_labels l) < Z.of_nat (shape0 nuclei_labels) /\
     0 <= snd (centroid_pixel nuclei_labels l) < Z.of_nat (shape1 nuclei_labels)) /\
  (forall myotube_mask,
     shape0 myotube_mask = shape0 nuclei_labels ->
     shape1 myotube_mask = shape1 nuclei_labels ->
     (forall l, In l (unique_nuclei nuclei_labels) ->
        let y := fst (centroid_pixel nuclei_labels l) in
        let x := snd (centroid_pixel nuclei_labels l) in
        (y <? Z.of_nat (shape0 myotube_mask)) && (x <? Z.of_nat (shape1 myotube_mask))
          = true /\
        np_getitem myotube_mask y x = Ok (get myotube_mask (Z.to_nat y, Z.to_nat x)) /\
        centroid_in_mask myotube_mask y x
          = Ok (get myotube_mask (Z.to_nat y, Z.to_nat x) >? 0)) /\
     exists res,
       relationship_core nuclei_labels myotube_mask = Ok res /\
       nuclei_in_myotube res =
         map (fun l => get myotube_mask
                         (Z.to_nat (fst (centroid_pixel nuclei_labels l)),
                          Z.to_nat (snd (centroid_pixel nuclei_labels l))) >? 0)
             (unique_nuclei nuclei_labels)).
Proof.
  split; [apply centroid_pixel_bounds|].
  intros myotube_mask H0 H1.
  assert (Hg : forall l, In l (unique_nuclei nuclei_labels) ->
     (fst (centroid_pixel nuclei_labels l) <? Z.of_nat (shape0 myotube_mask))
     && (snd (centroid_pixel nuclei_labels l) <? Z.of_nat (shape1 myotube_mask)) = true).
  { intros l Hl. destruct (centroid_pixel_bounds nuclei_labels l Hl) as [Hy Hx].
    rewrite H0, H1. apply andb_true_iff. rewrite !Z.ltb_lt. lia. }
  split.
  - intros l Hl y x. pose proof (Hg l Hl) as Hgl. fold y x in Hgl.
    destruct (centroid_pixel_bounds nuclei_labels l Hl) as [Hy Hx]. fold y in Hy. fold x in Hx.
    split; [assumption|]. split.
    + unfold np_getitem. rewrite !norm_index_ok by (rewrite ?H0, ?H1; lia). reflexivity.
    + rewrite centroid_in_mask_ok by lia. now rewrite Hgl.
  - destruct (relationship_core_ok nuclei_labels myotube_mask) as [pct [_ Hc]].
    eexists. split; [exact Hc|]. simpl. apply map_ext_in. intros l Hl.
    unfold nucleus_inside. now rewrite (Hg l Hl).
Qed.

Lemma centroid_lookup_in_bounds_witness :
  shape0 pair_mask = shape0 pair_labels /\
  shape1 pair_mask = shape1 pair_labels /\
  exists res,
    relationship_core pair_labels pair_mask = Ok res /\
    nuclei_in_myotube res = [true; false].
Proof.
  split; [reflexivity|]. split; [reflexivity|].
  destruct (proj2 (centroid_lookup_in_bounds pair_labels) pair_mask eq_refl eq_refl)
    as [_ [res [H1 H2]]].
  exists res. split; [exact H1|]. rewrite H2. reflexivity.
Defined.

Lemma relationship_counts labels mask :
  exists res,
    relationship_core labels mask = Ok res /\
    nuclei_within_myotubes res + nuclei_outside_myotubes res = total_nuclei res /\
    total_nuclei res = Z.of_nat (length (unique_nuclei labels)) /\
    length (nuclei_centroids res) = length (unique_nuclei labels) /\
    length (nuclei_in_myotube res) = length (unique_nuclei labels).
Proof.
  destruct (relationship_core_ok labels mask) as [pct [_ Hc]].
  eexists. split; [exact Hc|]. simpl. rewrite count_true_false, !length_map. auto.
Qed.

Example pair_analysis :
  exists res, relationship_core pair_labels pair_mask = Ok res /\
              nuclei_within_myotubes res = 1 /\ nuclei_outside_myotubes res = 1 /\
              (percentage_within_myotubes res == 50)%Q.
Proof. eexists. split; [vm_compute; reflexivity|]. repeat split. Qed.

(** ** Loading and colour conversion *)

Lemma valid_image_spec img :
  valid_image img = true ->
  (0 < shape0 img)%nat /\ (0 < shape1 img)%nat /\
  (channels img = 3 \/ channels img = 4)%nat.
Proof.
  unfold valid_image. rewrite !andb_true_iff, orb_true_iff, !Nat.ltb_lt, !Nat.eqb_eq. tauto.
Qed.

Lemma cvtColor_ok img :
  valid_image img = true -> cvtColor_BGR2RGB img = Ok (map (map swap_rb) img).
Proof.
  intros H. apply valid_image_spec in H. destruct H as [H0 [H1 Hc]].
  unfold cvtColor_BGR2RGB.
  replace (Nat.eqb (shape0 img) 0) with false by (symmetry; apply Nat.eqb_neq; lia).
  replace (Nat.eqb (shape1 img) 0) with false by (symmetry; apply Nat.eqb_neq; lia).
  simpl. destruct Hc as [-> | ->]; reflexivity.
Qed.


Lemma shape0_swapped img : shape0 (map (map swap_rb) img) = shape0 img.
Proof. unfold shape0. apply length_map. Qed.

Lemma shape1_swapped img : shape1 (map (map swap_rb) img) = shape1 img.
Proof. unfold shape1. destruct img; simpl; [reflexivity|apply length_map]. Qed.

Lemma channels_swapped img :
  (0 < shape0 img)%nat -> (0 < shape1 img)%nat -> channels (map (map swap_rb) img) = 3%nat.
Proof.
  unfold shape0, shape1, channels. destruct img as [|[|px row] rows]; simpl; lia.
Qed.

Lemma get_channel_ok img k :
  valid_image img = true -> (k < 3)%nat ->
  get_channel (map (map swap_rb) img) k =
  Ok (tabulate (shape0 img) (shape1 img)
        (fun p => nth k (swap_rb (bgr_at img p)) 0)).
Proof.
  intros H Hk. apply valid_image_spec in H. destruct H as [H0 [H1 _]].
  unfold get_channel. rewrite channels_swapped by assumption.
  replace (Nat.ltb k 3) with true by (symmetry; apply Nat.ltb_lt; lia).
  rewrite shape0_swapped, shape1_swapped. f_equal. apply tabulate_ext.
  intros [r c] Hp. apply in_pixels_of in Hp. simpl in Hp. unfold bgr_at. simpl.
  f_equal.
  rewrite (nth_indep _ [] (map swap_rb [])) by (rewrite length_map; unfold shape0 in *; lia).
  rewrite (map_nth (map swap_rb) img [] r).
  destruct (Nat.lt_ge_cases c (length (nth r img []))) as [Hc|Hc].
  - rewrite (nth_indep _ [] (swap_rb [])) by now rewrite length_map.
    now rewrite (map_nth swap_rb (nth r img []) [] c).
  - rewrite (nth_overflow (map swap_rb (nth r img []))) by (rewrite length_map; lia).
    rewrite (nth_overflow (nth r img [])) by lia.
    destruct k as [|[|[|k]]]; try lia; reflexivity.
Qed.

(** ** Shapes and all-zero arrays through the integer routines *)

Lemma pixels_threshold_binary t v a : pixels (threshold_binary t v a) = pixels a.
Proof. unfold threshold_binary. now rewrite pixels_tabulate. Qed.

Lemma pixels_erode1 k a : pixels (erode1 k a) = pixels a.
Proof. unfold erode1. now rewrite pixels_tabulate. Qed.

Lemma pixels_dilate1 k a : pixels (dilate1 k a) = pixels a.
Proof. unfold dilate1. now rewrite pixels_tabulate. Qed.

Lemma pixels_erode k n a : pixels (erode k n a) = pixels a.
Proof.
  unfold erode. induction n as [|n IH]; simpl; [reflexivity|].
  now rewrite pixels_erode1.
Qed.

Lemma pixels_dilate k n a : pixels (dilate k n a) = pixels a.
Proof.
  unfold dilate. induction n as [|n IH]; simpl; [reflexivity|].
  now rewrite pixels_dilate1.
Qed.

Lemma threshold_binary_zero t v a :
  0 <= t -> all_zero a -> all_zero (threshold_binary t v a).
Proof.
  intros Ht Ha p Hp. rewrite pixels_threshold_binary in Hp.
  unfold threshold_binary. rewrite get_tabulate by exact Hp.
  rewrite (Ha p Hp). destruct (0 >? t) eqn:E; [lia|reflexivity].
Qed.

Lemma fold_min_zero xs : (forall x, In x xs -> x = 0) -> fold_right Z.min 0 xs = 0.
Proof.
  induction xs as [|x t IH]; intros H; simpl; [reflexivity|].
  rewrite IH by (intros; apply H; now right). rewrite (H x) by now left. reflexivity.
Qed.

Lemma fold_max_zero xs : (forall x, In x xs -> x = 0) -> fold_right Z.max 0 xs = 0.
Proof.
  induction xs as [|x t IH]; intros H; simpl; [reflexivity|].
  rewrite IH by (intros; apply H; now right). rewrite (H x) by now left. reflexivity.
Qed.

Lemma window_values_zero k a p :
  all_zero a -> forall x, In x (map (get a) (window k a p)) -> x = 0.
Proof.
  intros Ha x Hx. apply in_map_iff in Hx. destruct Hx as [q [<- Hq]].
  unfold window in Hq. apply filter_In in Hq. now apply Ha.
Qed.

Lemma erode1_zero k a : all_zero a -> all_zero (erode1 k a).
Proof.
  intros Ha p Hp. rewrite pixels_erode1 in Hp. unfold erode1.
  rewrite get_tabulate by exact Hp. rewrite (Ha p Hp).
  apply fold_min_zero. now apply window_values_zero.
Qed.

Lemma dilate1_zero k a : all_zero a -> all_zero (dilate1 k a).
Proof.
  intros Ha p Hp. rewrite pixels_dilate1 in Hp. unfold dilate1.
  rewrite get_tabulate by exact Hp. rewrite (Ha p Hp).
  apply fold_max_zero. now apply window_values_zero.
Qed.

Lemma erode_zero k n a : all_zero a -> all_zero (erode k n a).
Proof.
  intros Ha. unfold erode. induction n as [|n IH]; simpl; [assumption|].
  now apply erode1_zero.
Qed.

Lemma dilate_zero k n a : all_zero a -> all_zero (dilate k n a).
Proof.
  intros Ha. unfold dilate. induction n as [|n IH]; simpl; [assumption|].
  now apply dilate1_zero.
Qed.

(** ** np.max and np.unique on a dense label map *)

Lemma fold_left_max_ge t : forall x, x <= fold_left Z.max t x.
Proof.
  induction t as [|y t IH]; intros x; simpl; [lia|].
  specialize (IH (Z.max x y)). lia.
Qed.

Lemma fold_left_max_In t : forall x, In (fold_left Z.max t x) (x :: t).
Proof.
  induction t as [|y t IH]; intros x; simpl; [now left|].
  destruct (IH (Z.max x y)) as [H|H].
  - rewrite <- H. destruct (Z.max_spec x y) as [[_ ->]|[_ ->]]; auto.
  - right. now right.
Qed.

Lemma fold_left_max_ub t : forall x y, In y (x :: t) -> y <= fold_left Z.max t x.
Proof.
  induction t as [|z t IH]; intros x y H; simpl.
  - destruct H as [->|[]]. lia.
  - destruct H as [->|[->|H]].
    + pose proof (fold_left_max_ge t (Z.max y z)). lia.
    + pose proof (fold_left_max_ge t (Z.max x y)). lia.
    + apply IH. now right.
Qed.

Lemma np_max_dense a N :
  pixels a <> [] ->
  (forall p, In p (pixels a) -> 0 <= get a p <= N) ->
  (forall i, 1 <= i <= N -> exists p, In p (pixels a) /\ get a p = i) ->
  np_max a = Ok N.
Proof.
  intros Hne Hr Hd. unfold np_max.
  destruct (flatten a) as [|x t] eqn:E.
  { unfold flatten in E. apply map_eq_nil in E. contradiction. }
  f_equal.
  assert (Hin : In (fold_left Z.max t x) (flatten a)) by (rewrite E; apply fold_left_max_In).
  unfold flatten in Hin. apply in_map_iff in Hin. destruct Hin as [p [Hp Hpin]].
  specialize (Hr p Hpin). rewrite Hp in Hr.
  destruct (Z.eq_dec N 0) as [->|HN]; [lia|].
  destruct (Hd N) as [q [Hq Hv]]; [lia|].
  assert (In N (x :: t)).
  { rewrite <- E. unfold flatten. apply in_map_iff. eauto. }
  pose proof (fold_left_max_ub t x N H). lia.
Qed.

Lemma labels_upto_In n l : In l (labels_upto n) <-> 1 <= l <= Z.of_nat n.
Proof.
  unfold labels_upto. rewrite in_map_iff. split.
  - intros [k [<- Hk]]. apply in_seq in Hk. lia.
  - intros H. exists (Z.to_nat l). split; [lia|]. apply in_seq. lia.
Qed.

Lemma unique_nuclei_dense a n :
  (forall p, In p (pixels a) -> 0 <= get a p <= Z.of_nat n) ->
  (forall i, 1 <= i <= Z.of_nat n -> exists p, In p (pixels a) /\ get a p = i) ->
  length (unique_nuclei a) = n.
Proof.
  intros Hr Hd.
  assert (HP : Permutation (unique_nuclei a) (labels_upto n)).
  { apply NoDup_Permutation.
    - apply unique_nuclei_NoDup.
    - unfold labels_upto. apply Finite.Injective_map_NoDup;
        [intros x y; apply Nat2Z.inj|apply seq_NoDup].
    - intros l. rewrite unique_nuclei_In, labels_upto_In. split.
      + intros [Hl [p [Hp Hv]]]. specialize (Hr p Hp). lia.
      + intros Hl. split; [lia|]. destruct (Hd l Hl) as [p [Hp Hv]]. eauto. }
  apply Permutation_length in HP. rewrite HP. unfold labels_upto.
  now rewrite length_map, length_seq.
Qed.

Lemma components_all_zero a : all_zero a -> components a = [].
Proof.
  intros Ha. pose proof (components_rooted a) as Hr.
  destruct (components a) as [|c cs] eqn:E; [reflexivity|].
  destruct (Hr 0%nat) as [r [Hin [Hfg _]]]; [simpl; lia|].
  now rewrite (Ha r Hin) in Hfg.
Qed.

Lemma pixels_map_map {A B} (f : A -> B) (d : grid A) : pixels (map (map f) d) = pixels d.
Proof.
  unfold pixels, shape0, shape1. rewrite length_map.
  destruct d; simpl; [reflexivity|now rewrite length_map].
Qed.

Lemma pixels_of_nonempty h w : (0 < h)%nat -> (0 < w)%nat -> pixels_of h w <> [].
Proof.
  intros Hh Hw E. assert (H : In (0%nat, 0%nat) (pixels_of h w))
    by (apply in_pixels_of; simpl; lia).
  rewrite E in H. contradiction.
Qed.

(** ** The nuclei path *)

Section NucleiPath.
Variable cv2_imread : String.string -> option image3.
Variable GaussianBlur : ndarray -> ndarray.
Variable otsu : ndarray -> Z.
Variable distanceTransform : ndarray -> grid Q.
Variable normalize : grid Q -> grid Q.
Variable peak_local_max : grid Q -> Z -> ndarray -> list pixel.
Variable watershed : grid Q -> ndarray -> ndarray -> ndarray.

(** The routines return arrays of the shape of their input. *)
Hypothesis blur_shape : forall a, same_shape (GaussianBlur a) a.
Hypothesis distance_shape : forall a, same_shape (distanceTransform a) a.
Hypothesis normalize_shape : forall d, same_shape (normalize d) d.
Hypothesis watershed_shape : forall d mk mask,
  same_shape d mk -> same_shape mask mk -> same_shape (watershed d mk mask) mk.
(** Peaks are reported only inside the non-zero part of [labels]. *)
Hypothesis peaks_in_labels : forall d k lab p,
  same_shape d lab ->
  In p (peak_local_max d k lab) -> In p (pixels lab) /\ get lab p <> 0.
(** A marker inside the mask keeps its label, and the flooding creates no
    label of its own. *)
Hypothesis watershed_seed : forall d mk mask p,
  same_shape d mk -> same_shape mask mk ->
  In p (pixels mk) -> 0 < get mk p -> get mask p <> 0 ->
  get (watershed d mk mask) p = get mk p.
Hypothesis watershed_range : forall d mk mask p,
  same_shape d mk -> same_shape mask mk ->
  In p (pixels mk) -> get (watershed d mk mask) p <> 0 ->
  exists q, In q (pixels mk) /\ get mk q = get (watershed d mk mask) p.

Local Abbreviation labels_of :=
  (nuclei_labels_of distanceTransform normalize peak_local_max watershed).
Local Abbreviation coordinates_of :=
  (nuclei_coordinates distanceTransform normalize peak_local_max).
Local Abbreviation nuclei :=
  (detect_nuclei cv2_imread GaussianBlur otsu distanceTransform normalize
     peak_local_max watershed).

Lemma pixels_dist dilated :
  pixels (normalize (distanceTransform dilated)) = pixels dilated.
Proof. now rewrite normalize_shape, distance_shape. Qed.

Lemma nuclei_labels_spec dilated :
  exists labels n,
    labels_of dilated = Ok labels /\
    same_shape labels dilated /\
    (forall p, In p (pixels labels) -> 0 <= get labels p <= Z.of_nat n) /\
    (forall i, 1 <= i <= Z.of_nat n ->
       exists p, In p (pixels labels) /\ get labels p = i) /\
    (all_zero dilated -> coordinates_of dilated = [] /\ n = 0%nat).
Proof.
  unfold nuclei_labels_of, nuclei_coordinates. cbv zeta.
  set (d := normalize (distanceTransform dilated)).
  set (cs := peak_local_max d 7 dilated).
  assert (Hd : pixels d = pixels dilated) by apply pixels_dist.
  assert (Hpeak : forall p, In p cs -> In p (pixels dilated) /\ get dilated p <> 0).
  { intros p Hp. now apply (peaks_in_labels d 7 dilated p Hd). }
  assert (Hcs : incl cs (pixels_of (shape0 d) (shape1 d))).
  { intros p Hp. apply Hpeak in Hp. fold (pixels d). rewrite Hd. tauto. }
  unfold zeros_like. rewrite np_setitems_tabulate by exact Hcs. cbn [bind].
  set (lm := tabulate (shape0 d) (shape1 d) (fun q => if mem q cs then 1 else 0)).
  assert (Hlm : pixels lm = pixels dilated)
    by (unfold lm; rewrite pixels_tabulate; exact Hd).
  set (mk := measure_label lm).
  assert (Hmk : pixels mk = pixels dilated)
    by (unfold mk; now rewrite pixels_measure_label).
  assert (Hs1 : same_shape (map (map Qopp) d) mk)
    by (unfold same_shape; now rewrite pixels_map_map, Hd, Hmk).
  assert (Hs2 : same_shape dilated mk) by (unfold same_shape; now rewrite Hmk).
  set (L := watershed (map (map Qopp) d) mk dilated).
  assert (HL : pixels L = pixels dilated)
    by (unfold L; now rewrite (watershed_shape _ _ _ Hs1 Hs2)).
  assert (Hlm_get : forall q, In q (pixels dilated) ->
            get lm q = if mem q cs then 1 else 0).
  { intros q Hq. unfold lm. rewrite get_tabulate; [reflexivity|].
    fold (pixels d). now rewrite Hd. }
  exists L, (length (components lm)). split; [reflexivity|].
  split; [exact HL|]. split; [|split].
  - intros p Hp. rewrite HL, <- Hmk in Hp.
    destruct (Z.eq_dec (get L p) 0) as [->|Hnz]; [lia|].
    destruct (watershed_range _ _ _ p Hs1 Hs2 Hp Hnz) as [q [Hq Hv]].
    fold L in Hv. rewrite <- Hv. apply measure_label_range.
    now rewrite Hmk, <- Hlm in Hq.
  - intros i Hi. destruct (measure_label_dense lm i Hi) as [p [Hp Hv]].
    fold mk in Hv. exists p. rewrite HL, <- Hlm. split; [assumption|].
    rewrite <- Hv. unfold L. apply watershed_seed; try assumption.
    + now rewrite Hmk, <- Hlm.
    + lia.
    + rewrite Hlm in Hp.
      assert (Hfg : get lm p <> 0).
      { intros Hz. apply (measure_label_zero lm p) in Hz; [|now rewrite Hlm].
        fold mk in Hz. lia. }
      rewrite Hlm_get in Hfg by assumption.
      destruct (mem p cs) eqn:Em; [|congruence].
      apply mem_In, Hpeak in Em. tauto.
  - intros Hz.
    assert (Hnil : cs = []).
    { destruct cs as [|p t] eqn:E; [reflexivity|].
      destruct (Hpeak p (or_introl eq_refl)) as [Hp Hfg].
      now rewrite (Hz p Hp) in Hfg. }
    split; [exact Hnil|].
    rewrite components_all_zero; [reflexivity|].
    intros q Hq. rewrite Hlm in Hq. rewrite Hlm_get by assumption.
    rewrite Hnil. reflexivity.
Qed.

Lemma pixels_nuclei_binary blurred : pixels (nuclei_binary otsu blurred) = pixels blurred.
Proof.
  unfold nuclei_binary. cbv zeta.
  now rewrite pixels_dilate, pixels_erode, pixels_threshold_binary.
Qed.

Lemma detect_nuclei_ok image_path image :
  cv2_imread image_path = Some image -> valid_image image = true ->
  exists labels n,
    nuclei image_path =
      Ok (mkNuclei (Z.of_nat n) (otsu (GaussianBlur (blue_of image))) labels) /\
    pixels labels = pixels_of (shape0 image) (shape1 image) /\
    np_max labels = Ok (Z.of_nat n) /\
    length (unique_nuclei labels) = n /\
    (all_zero (nuclei_binary otsu (GaussianBlur (blue_of image))) ->
       n = 0%nat /\ all_zero labels /\
       coordinates_of (nuclei_binary otsu (GaussianBlur (blue_of image))) = []).
Proof.
  intros Hread Hvalid. unfold detect_nuclei. rewrite Hread.
  rewrite cvtColor_ok by assumption. cbn [bind].
  rewrite get_channel_ok by (assumption || lia). cbn [bind]. fold (blue_of image).
  set (dilated := nuclei_binary otsu (GaussianBlur (blue_of image))).
  destruct (nuclei_labels_spec dilated) as [labels [n [HL [Hs [Hr [Hd Hz]]]]]].
  assert (Hpix : pixels labels = pixels_of (shape0 image) (shape1 image)).
  { rewrite Hs. unfold dilated. rewrite pixels_nuclei_binary, blur_shape.
    unfold blue_of. now rewrite pixels_tabulate. }
  assert (Hmax : np_max labels = Ok (Z.of_nat n)).
  { apply np_max_dense; try assumption. rewrite Hpix.
    apply valid_image_spec in Hvalid. apply pixels_of_nonempty; tauto. }
  exists labels, n. rewrite HL. cbn [bind]. rewrite Hmax. cbn [bind].
  split; [reflexivity|]. split; [assumption|].
  split; [reflexivity|]. split; [now apply unique_nuclei_dense|].
  intros Hzero. destruct (Hz Hzero) as [Hc Hn]. subst n.
  split; [reflexivity|]. split; [|assumption].
  intros p Hp. specialize (Hr p Hp). simpl in Hr. lia.
Qed.

Section BlackChannel.
Hypothesis blur_zero : forall a, all_zero a -> all_zero (GaussianBlur a).
Hypothesis otsu_nonneg : forall a, 0 <= otsu a.

Lemma nuclei_binary_zero blurred :
  all_zero blurred -> all_zero (nuclei_binary otsu blurred).
Proof.
  intros H. unfold nuclei_binary. cbv zeta.
  apply dilate_zero, erode_zero, threshold_binary_zero; [apply otsu_nonneg|assumption].
Qed.

(** C8. When the nuclei (blue) channel of the image is entirely zero,
    the nuclei path raises nothing: peak detection reports no local
    maximum, [nuclei_count] is 0 and the label map is all zero, of the
    image's shape. *)
Theorem black_nuclei_channel (image_path : String.string) (image : image3) :
  cv2_imread image_path = Some image -> valid_image image = true ->
  (forall p, In p (pixels image) -> nth 0 (bgr_at image p) 0 = 0) ->
  exists res,
    nuclei image_path = Ok res /\
    coordinates_of (nuclei_binary otsu (GaussianBlur (blue_of image))) = [] /\
    nuclei_count res = 0 /\
    all_zero (labels res) /\
    same_shape (labels res) image.
Proof.
  intros Hread Hvalid Hblack.
  destruct (detect_nuclei_ok image_path image Hread Hvalid)
    as [L [n [Hn [Hpix [_ [_ Hz]]]]]].
  assert (Hblue : all_zero (blue_of image)).
  { intros p Hp. unfold blue_of in *. rewrite pixels_tabulate in Hp.
    rewrite get_tabulate by assumption. simpl. now apply Hblack. }
  destruct Hz as [Hn0 [HL Hc]]; [now apply nuclei_binary_zero, blur_zero|].
  subst n. eexists. split; [exact Hn|]. simpl.
  split; [assumption|]. split; [reflexivity|]. split; assumption.
Qed.
End BlackChannel.

End NucleiPath.

(** ** The myotube path *)

Section MyotubePath.
Variable cv2_imread : String.string -> option image3.
Variable GaussianBlur : ndarray -> ndarray.
Variable getGaussianKernel : nat -> Q.

Local Abbreviation myotubes :=
  (detect_myotubes cv2_imread GaussianBlur getGaussianKernel).

Lemma detect_myotubes_ok image_path image :
  cv2_imread image_path = Some image -> valid_image image = true ->
  let closed := myotube_closed getGaussianKernel (GaussianBlur (red_of image)) in
  let image_area := Z.of_nat (shape0 image) * Z.of_nat (shape1 image) in
  exists fs pct,
    area_filter closed = Ok fs /\
    0 < image_area /\
    myotube_area_percentage_of (fs_total_area fs) image_area = Ok pct /\
    (pct == inject_Z (fs_total_area fs) / inject_Z image_area * inject_Z 100)%Q /\
    myotubes image_path =
      Ok (mkMyotubes (fs_count fs) (fs_total_area fs) pct (fs_filtered fs)
            (measure_label (fs_filtered fs))).
Proof.
  intros Hread Hvalid closed image_area. unfold detect_myotubes. rewrite Hread.
  rewrite cvtColor_ok by assumption. cbn [bind].
  rewrite get_channel_ok by (assumption || lia). cbn [bind]. fold (red_of image).
  fold closed. rewrite shape0_swapped, shape1_swapped. fold image_area.
  unfold area_filter. rewrite filter_regions_ok. cbn [bind fs_total_area].
  assert (Hpos : 0 < image_area).
  { apply valid_image_spec in Hvalid. unfold image_area. nia. }
  unfold myotube_area_percentage_of, py_truediv.
  replace (image_area =? 0) with false by (symmetry; apply Z.eqb_neq; lia).
  cbn [bind]. eexists _, _. split; [reflexivity|]. split; [assumption|].
  split; [reflexivity|]. split; reflexivity.
Qed.


End MyotubePath.


(** ** The whole analysis *)

Section Analysis.
Variable cv2_imread : String.string -> option image3.
Variable GaussianBlur : ndarray -> ndarray.
Variable getGaussianKernel : nat -> Q.
Variable otsu : ndarray -> Z.
Variable distanceTransform : ndarray -> grid Q.
Variable normalize : grid Q -> grid Q.
Variable peak_local_max : grid Q -> Z -> ndarray -> list pixel.
Variable watershed : grid Q -> ndarray -> ndarray -> ndarray.

Local Abbreviation nuclei :=
  (detect_nuclei cv2_imread GaussianBlur otsu distanceTransform normalize
     peak_local_max watershed).
Local Abbreviation myotubes :=
  (detect_myotubes cv2_imread GaussianBlur getGaussianKernel).
Local Abbreviation analyze :=
  (analyze_nuclei_myotube_relationship cv2_imread GaussianBlur getGaussianKernel otsu
     distanceTransform normalize peak_local_max watershed).


Hypothesis blur_shape : forall a, same_shape (GaussianBlur a) a.
Hypothesis distance_shape : forall a, same_shape (distanceTransform a) a.
Hypothesis normalize_shape : forall d, same_shape (normalize d) d.
Hypothesis watershed_shape : forall d mk mask,
  same_shape d mk -> same_shape mask mk -> same_shape (watershed d mk mask) mk.
Hypothesis peaks_in_labels : forall d k lab p,
  same_shape d lab ->
  In p (peak_local_max d k lab) -> In p (pixels lab) /\ get lab p <> 0.
Hypothesis watershed_seed : forall d mk mask p,
  same_shape d mk -> same_shape mask mk ->
  In p (pixels mk) -> 0 < get mk p -> get mask p <> 0 ->
  get (watershed d mk mask) p = get mk p.
Hypothesis watershed_range : forall d mk mask p,
  same_shape d mk -> same_shape mask mk ->
  In p (pixels mk) -> get (watershed d mk mask) p <> 0 ->
  exists q, In q (pixels mk) /\ get mk q = get (watershed d mk mask) p.

(** C1. For every image that loads, the analysis returns a result in
    which within + outside = total_nuclei, total_nuclei is the nuclei count
    reported by [detect_nuclei] (the maximum of the watershed label map),
    and the centroid and flag lists have that many entries. *)
Theorem analysis_counts_agree (image_path : String.string) (image : image3) :
  cv2_imread image_path = Some image -> valid_image image = true ->
  exists nres res,
    nuclei image_path = Ok nres /\
    analyze image_path = Ok res /\
    np_max (labels nres) = Ok (nuclei_count nres) /\
    nuclei_within_myotubes (relation res) + nuclei_outside_myotubes (relation res)
      = total_nuclei (relation res) /\
    total_nuclei (relation res) = nuclei_count nres /\
    Z.of_nat (length (nuclei_centroids (relation res))) = nuclei_count nres /\
    Z.of_nat (length (nuclei_in_myotube (relation res))) = nuclei_count nres.
Proof.
  intros Hread Hvalid.
  destruct (detect_nuclei_ok cv2_imread GaussianBlur otsu distanceTransform normalize
              peak_local_max watershed blur_shape distance_shape normalize_shape
              watershed_shape peaks_in_labels watershed_seed watershed_range
              image_path image Hread Hvalid)
    as [L [n [Hn [_ [Hmax [Hlen _]]]]]].
  destruct (detect_myotubes_ok cv2_imread GaussianBlur getGaussianKernel
              image_path image Hread Hvalid)
    as [fs [pct [_ [_ [_ [_ Hm]]]]]].
  destruct (relationship_counts L (fs_filtered fs)) as [rel [Hrel [H1 [H2 [H3 H4]]]]].
  eexists. exists (mkAnalysis rel (fs_count fs) pct).
  split; [exact Hn|]. split.
  - unfold analyze_nuclei_myotube_relationship. rewrite Hread.
    rewrite cvtColor_ok by assumption. cbn [bind].
    rewrite Hn, Hm. cbn [bind labels myotube_mask]. rewrite Hrel. reflexivity.
  - cbn [labels nuclei_count relation]. split; [assumption|]. split; [assumption|].
    rewrite H2, H3, H4, Hlen. auto.
Qed.

End Analysis.

(** ** Adaptive thresholding *)







(** ** The sample routines meet the contracts *)

Lemma reflect101_loop_range fuel : forall i n, 0 < n -> 0 <= reflect101_loop fuel i n < n.
Proof.
  induction fuel as [|fuel IH]; intros i n Hn; simpl; [lia|].
  destruct (i <? 0) eqn:E1; [now apply IH|].
  destruct (n <=? i) eqn:E2; [now apply IH|].
  apply Z.ltb_ge in E1. apply Z.leb_gt in E2. lia.
Qed.

Lemma reflect101_lt i n : (0 < n)%nat -> (reflect101 i n < n)%nat.
Proof.
  intros Hn. unfold reflect101. destruct (Nat.eqb n 1) eqn:E; [lia|].
  pose proof (reflect101_loop_range 8 i (Z.of_nat n)). lia.
Qed.

Lemma sum_Z_zero xs : (forall x, In x xs -> x = 0) -> sum_Z xs = 0.
Proof.
  induction xs as [|x t IH]; intros H; simpl; [reflexivity|].
  rewrite IH by (intros; apply H; now right). rewrite (H x) by now left. reflexivity.
Qed.

Lemma gaussian_blur_shape a : same_shape (gaussian_blur_5x5 a) a.
Proof. unfold same_shape, gaussian_blur_5x5. now rewrite pixels_tabulate. Qed.

Lemma gaussian_blur_zero a : all_zero a -> all_zero (gaussian_blur_5x5 a).
Proof.
  intros Ha p Hp. rewrite gaussian_blur_shape in Hp. unfold gaussian_blur_5x5.
  rewrite get_tabulate by exact Hp. unfold blur5_sum.
  rewrite sum_Z_zero; [reflexivity|].
  intros x Hx. apply in_map_iff in Hx. destruct Hx as [ij [<- _]].
  apply in_pixels_of in Hp.
  rewrite Ha; [lia|]. apply in_pixels_of. simpl.
  split; apply reflect101_lt; lia.
Qed.

Lemma sample_otsu_nonneg a : 0 <= sample_otsu a.
Proof. unfold sample_otsu. lia. Qed.

Lemma sample_distance_shape a : same_shape (sample_distance a) a.
Proof. apply pixels_map_map. Qed.

Lemma sample_normalize_shape d : same_shape (sample_normalize d) d.
Proof. reflexivity. Qed.

Lemma sample_peaks_in_labels d k lab p :
  same_shape d lab -> In p (sample_peaks d k lab) -> In p (pixels lab) /\ get lab p <> 0.
Proof.
  intros _ H. unfold sample_peaks in H.
  assert (Hin : In p (filter (fun q => negb (get lab q =? 0)) (pixels lab))).
  { destruct (filter _ (pixels lab)) as [|x t]; simpl in H; [contradiction|].
    destruct H as [<-|[]]. now left. }
  apply filter_In in Hin. destruct Hin as [Hp Hv]. split; [assumption|].
  apply negb_true_iff, Z.eqb_neq in Hv. assumption.
Qed.

Lemma sample_watershed_shape d mk mask :
  same_shape d mk -> same_shape mask mk -> same_shape (sample_watershed d mk mask) mk.
Proof. intros _ _. unfold same_shape, sample_watershed. now rewrite pixels_tabulate. Qed.

Lemma sample_watershed_seed d mk mask p :
  same_shape d mk -> same_shape mask mk ->
  In p (pixels mk) -> 0 < get mk p -> get mask p <> 0 ->
  get (sample_watershed d mk mask) p = get mk p.
Proof.
  intros _ _ Hp _ Hm. unfold sample_watershed. rewrite get_tabulate by exact Hp.
  now replace (get mask p =? 0) with false by (symmetry; apply Z.eqb_neq; assumption).
Qed.

Lemma sample_watershed_range d mk mask p :
  same_shape d mk -> same_shape mask mk ->
  In p (pixels mk) -> get (sample_watershed d mk mask) p <> 0 ->
  exists q, In q (pixels mk) /\ get mk q = get (sample_watershed d mk mask) p.
Proof.
  intros _ _ Hp Hnz. exists p. split; [assumption|].
  unfold sample_watershed in *. rewrite get_tabulate in * by exact Hp.
  destruct (get mask p =? 0); [congruence|reflexivity].
Qed.

(** ** The pipeline theorems at the sample routines *)

Lemma analysis_counts_agree_witness :
  sample_imread blue_image String.EmptyString = Some blue_image /\
  valid_image blue_image = true /\
  exists nres res,
    detect_nuclei (sample_imread blue_image) gaussian_blur_5x5 sample_otsu sample_distance
      sample_normalize sample_peaks sample_watershed String.EmptyString = Ok nres /\
    analyze_nuclei_myotube_relationship (sample_imread blue_image) gaussian_blur_5x5
      (gaussian_kernel 21) sample_otsu sample_distance sample_normalize sample_peaks
      sample_watershed String.EmptyString = Ok res /\
    np_max (labels nres) = Ok (nuclei_count nres) /\
    nuclei_within_myotubes (relation res) + nuclei_outside_myotubes (relation res)
      = total_nuclei (relation res) /\
    total_nuclei (relation res) = nuclei_count nres /\
    Z.of_nat (length (nuclei_centroids (relation res))) = nuclei_count nres /\
    Z.of_nat (length (nuclei_in_myotube (relation res))) = nuclei_count nres.
Proof.
  split; [reflexivity|]. split; [reflexivity|].
  apply (analysis_counts_agree (sample_imread blue_image) gaussian_blur_5x5 (gaussian_kernel 21)
           sample_otsu sample_distance sample_normalize sample_peaks sample_watershed
           gaussian_blur_shape sample_distance_shape sample_normalize_shape
           sample_watershed_shape sample_peaks_in_labels sample_watershed_seed
           sample_watershed_range String.EmptyString blue_image eq_refl eq_refl).
Defined.

Lemma black_image_blue_zero :
  forall p, In p (pixels black_image) -> nth 0 (bgr_at black_image p) 0 = 0.
Proof.
  intros [r c] Hp. apply in_pixels_of in Hp. unfold shape0, shape1 in Hp.
  simpl in Hp. unfold bgr_at. simpl.
  destruct r as [|[|r]]; destruct c as [|[|c]]; try lia; reflexivity.
Qed.

Lemma black_nuclei_channel_witness :
  sample_imread black_image String.EmptyString = Some black_image /\
  valid_image black_image = true /\
  exists res,
    detect_nuclei (sample_imread black_image) gaussian_blur_5x5 sample_otsu sample_distance
      sample_normalize sample_peaks sample_watershed String.EmptyString = Ok res /\
    nuclei_coordinates sample_distance sample_normalize sample_peaks
      (nuclei_binary sample_otsu (gaussian_blur_5x5 (blue_of black_image))) = [] /\
    nuclei_count res = 0 /\
    all_zero (labels res) /\
    same_shape (labels res) black_image.
Proof.
  split; [reflexivity|]. split; [reflexivity|].
  apply (black_nuclei_channel (sample_imread black_image) gaussian_blur_5x5 sample_otsu
           sample_distance sample_normalize sample_peaks sample_watershed
           gaussian_blur_shape sample_distance_shape sample_normalize_shape
           sample_watershed_shape sample_peaks_in_labels sample_watershed_seed
           sample_watershed_range gaussian_blur_zero sample_otsu_nonneg
           String.EmptyString black_image eq_refl eq_refl black_image_blue_zero).
Defined.



(** The sample pipeline on [blue_image]: one nucleus, no myotube. *)
Example blue_image_nuclei :
  exists L,
    detect_nuclei (sample_imread blue_image) gaussian_blur_5x5 sample_otsu sample_distance
      sample_normalize sample_peaks sample_watershed String.EmptyString
    = Ok (mkNuclei 1 0 L).
Proof. eexists. vm_compute. reflexivity. Qed.
